(** * safe: panics of Go functions and goroutines turned into errors

    A shallow embedding of [safe.go]: [PanicError], [Do], [DoWithResult],
    [Go], [Group] and the global panic handler.

    Go code that can panic and that reads and writes package state is a
    function from a [world] to an [outcome] and a new [world].  A closure
    handed to the package ([fn], the panic handler) is such a function too,
    chosen by the caller. *)

From Stdlib Require Import String List Bool Arith Lia Permutation.
Import ListNotations.
Local Open Scope string_scope.

(** ** Values *)

(** What the package does not fix: the dynamic values of types declared
    elsewhere (panic payloads, errors of other packages), the frames of a
    stack trace, the contexts of package [context], and the state of the
    rest of the program. *)
Class Universe : Type := {
  T : Type;
  Frame : Type;
  Context : Type;
  Ext : Type
}.

(** A value of type [func(err error)]: the nil func, or a closure, named by
    its entry in the table of closures ([closures] below). *)
Inductive func : Type :=
| nil_func
| closure (code : nat).

Section Values.
Context {U : Universe}.

(** [errors.StackTrace]. *)
Definition StackTrace : Type := list Frame.

(** pkg/errors' [fundamental], what [errors.Errorf] returns: a message and the
    stack of its caller.  It is the [pkgError] a [PanicError] embeds. *)
Record fundamental : Type := {
  msg : string;
  stack : StackTrace
}.

(** [interface{}] values, and the struct [PanicError].  An [error] is an
    interface value as well. *)
Inductive iface : Type :=
| NilIface                          (* the nil interface *)
| Dyn (t : T)                       (* a value of a type declared elsewhere *)
| OfString (s : string)             (* a string *)
| OfFunc (f : func)                 (* a func(err error), nil or not *)
| RuntimeError (text : string)      (* a runtime.Error *)
| OfPanicError (p : PanicError)     (* a safe.PanicError *)
with PanicError : Type :=
| Build_PanicError (pkgError : fundamental) (val : iface).

Definition error : Type := iface.

(** [x == nil] on an interface value. *)
Definition is_nil (x : iface) : bool :=
  match x with
  | NilIface => true
  | _ => false
  end.

(** [errors.StackTrace] of the embedded [pkgError]. *)
Definition PanicError_StackTrace (p : PanicError) : StackTrace :=
  match p with
  | Build_PanicError e _ => stack e
  end.

(** [func (p PanicError) Panic() interface{}] *)
Definition Panic (p : PanicError) : iface :=
  match p with
  | Build_PanicError _ val => val
  end.

(** [sync/atomic.Value]: the zero Value holds nil. *)
Record atomic_Value : Type := {
  v : iface
}.

(** The state that Go code of this program can see and change: the package
    variable [panicHandler], what has been handed to the standard logger (one
    entry per call of [log.Printf], oldest first), and the rest. *)
Record world : Type := {
  panicHandler : atomic_Value;
  log_output : list string;
  ext : Ext
}.

(** How a call ends: it returns, or the goroutine is panicking because
    [panic(p)] was called. *)
Inductive outcome (A : Type) : Type :=
| Returns (a : A)
| Panics (p : iface).

Definition M (A : Type) : Type := world -> outcome A * world.

End Values.

Arguments Returns {U A} a.
Arguments Panics {U A} p.

(** The four places where [panicError] is called, hence where
    [errors.Errorf] captures the stack. *)
Inductive site : Type :=
| in_Do
| in_DoWithResult
| in_handlePanic
| in_handlePanic_recover.

(** What the Go runtime and the libraries decide.  Rendering a value and
    capturing a stack are taken to leave the world as it is. *)
Class Env {U : Universe} : Type := {
  (* fmt's rendering of a foreign value under %v (false) and %+v (true) *)
  fmt_T : bool -> T -> string;
  (* fmt's rendering of a func value *)
  fmt_func : func -> string;
  (* pkg/errors' rendering of a Frame under %+v *)
  fmt_Frame : Frame -> string;
  (* the stack runtime.Callers reports inside errors.Errorf *)
  runtime_Callers : site -> StackTrace;
  (* GODEBUG panicnil=1, the default for modules declaring go < 1.21:
     panic(nil) is seen by recover() as nil *)
  panicnil : bool;
  (* the bodies of the closures of type func(err error) *)
  closures : nat -> error -> M unit;
  (* context.WithCancel: the derived context and its cancel function *)
  context_WithCancel : Context -> world -> (Context * (world -> world)) * world
}.

Section Package.
Context {U : Universe} {V : Env}.

(** ** The runtime: recover, fmt, log *)

Definition newline : string := String (Ascii.ascii_of_nat 10) EmptyString.

Definition PanicNilError : iface :=
  RuntimeError "panic called with nil argument (obsolete since Go 1.21)".

(** The value [recover()] returns in a deferred function while the goroutine
    is panicking from [panic(p)]. *)
Definition recovered (p : iface) : iface :=
  match p with
  | NilIface => if panicnil then NilIface else PanicNilError
  | _ => p
  end.

(** [recover()] in a function deferred by the function whose body ended with
    [o]: nil when it is not panicking.  The panic stops in either case. *)
Definition recover {A : Type} (o : outcome A) : iface :=
  match o with
  | Returns _ => NilIface
  | Panics p => recovered p
  end.

(** The method [Format] of pkg/errors' [fundamental], verb v: the message,
    and with the flag + every frame of the stack on a line of its own. *)
Definition fundamental_Format (plus : bool) (e : fundamental) : string :=
  if plus
  then msg e ++ String.concat EmptyString (map (fun f => newline ++ fmt_Frame f) (stack e))
  else msg e.

(** [fmt.Sprintf("%v", x)] and, with [plus], [fmt.Sprintf("%+v", x)].  A
    [PanicError] has the [Format] method of its embedded [pkgError]. *)
Definition Sprintf_v (plus : bool) (x : iface) : string :=
  match x with
  | NilIface => "<nil>"
  | Dyn t => fmt_T plus t
  | OfString s => s
  | OfFunc f => fmt_func f
  | RuntimeError text => text
  | OfPanicError (Build_PanicError e _) => fundamental_Format plus e
  end.

(** [log.Printf], given the formatted text. *)
Definition log_Printf (line : string) (w : world) : world :=
  {| panicHandler := panicHandler w;
     log_output := (log_output w ++ [line])%list;
     ext := ext w |}.

(** ** PanicError *)

(** [func panicError(val interface{}) error]; [at] is the call site, which
    fixes the stack that [errors.Errorf] captures. *)
Definition panicError (at_ : site) (val : iface) : error :=
  let err := {| msg := "panic: " ++ Sprintf_v false val;
                stack := runtime_Callers at_ |} in
  OfPanicError (Build_PanicError err val).

(** ** Do and DoWithResult *)

(** [func Do(fn func() error) (err error)].  The named result [err] is what
    [fn] returned, or still nil when [fn] panicked; the deferred function
    overwrites it when [recover()] is not nil. *)
Definition Do (fn : M error) : M error :=
  fun w =>
    let '(o, w1) := fn w in
    let err := match o with Returns e => e | Panics _ => NilIface end in
    let r := recover o in
    let err := if negb (is_nil r) then panicError in_Do r else err in
    (Returns err, w1).

(** [func DoWithResult(fn func() (interface{}, error)) (res interface{}, err error)] *)
Definition DoWithResult (fn : M (iface * error)) : M (iface * error) :=
  fun w =>
    let '(o, w1) := fn w in
    let '(res, err) :=
      match o with Returns re => re | Panics _ => (NilIface, NilIface) end in
    let r := recover o in
    let err := if negb (is_nil r) then panicError in_DoWithResult r else err in
    (Returns (res, err), w1).

(** ** The global panic handler *)

(** [Load] of [atomic.Value]. *)
Definition atomic_Load (a : atomic_Value) : iface := v a.

(** [Store] of [atomic.Value]: storing nil panics.  (Store also panics when the
    type of the value changes; [panicHandler] is unexported and only ever
    receives a [func(err error)].) *)
Definition atomic_Store (val : iface) (a : atomic_Value) : outcome atomic_Value :=
  if is_nil val
  then Panics (OfString "sync/atomic: store of nil value into Value")
  else Returns {| v := val |}.

(** [x.(func(err error))] in its two-result form. *)
Definition assert_func (x : iface) : func * bool :=
  match x with
  | OfFunc f => (f, true)
  | _ => (nil_func, false)
  end.

(** [func SetPanicHandler(fn func(err error))] *)
Definition SetPanicHandler (fn : func) : M unit :=
  fun w =>
    match atomic_Store (OfFunc fn) (panicHandler w) with
    | Returns a =>
        (Returns tt,
         {| panicHandler := a; log_output := log_output w; ext := ext w |})
    | Panics p => (Panics p, w)
    end.

(** [func handlePanic(val interface{})] *)
Definition handlePanic (val : iface) : M unit :=
  fun w =>
    let err := panicError in_handlePanic val in
    let '(fn, _) := assert_func (atomic_Load (panicHandler w)) in
    match fn with
    | nil_func =>
        (Returns tt, log_Printf (Sprintf_v true err ++ newline) w)
    | closure code =>
        let '(o, w1) := closures code err w in
        let r := recover o in
        if negb (is_nil r)
        then (Returns tt,
              log_Printf ("panic in panic handler: "
                          ++ Sprintf_v true (panicError in_handlePanic_recover r)
                          ++ newline ++ "original: "
                          ++ Sprintf_v true err ++ newline) w1)
        else (Returns tt, w1)
    end.

(** [func Go(fn func())].  The [go] statement returns at once and leaves the
    caller and the world as they are; what is defined here is the goroutine
    it starts.  A goroutine that ends in [Panics] takes the process down. *)
Definition Go (fn : M unit) : M unit :=
  fun w =>
    let '(o, w1) := fn w in
    let r := recover o in
    if negb (is_nil r) then handlePanic r w1 else (Returns tt, w1).

(** ** errgroup *)

(** Modelled from the spec: [errgroup.Group] (golang.org/x/sync/errgroup) is
    imported by [safe.go] and is not under src/.  The spec calls it the
    cooperative-failure tracker, which tracks the count of outstanding
    subtasks, the first error and a shared cancellable context: the first
    non-nil error among all launched subtasks is retained and later errors
    are discarded; the derived context is canceled the first time a launched
    subtask returns a non-nil error, or the first time wait returns; wait
    blocks until every subtask launched so far has completed, in any order,
    then returns the retained first error.

    A subtask is a goroutine.  It is kept in [running] from its launch until
    the scheduler lets it finish, and its body then runs in one piece. *)
Record errgroup_Group : Type := {
  cancel : option (world -> world);
  running : list (M error);
  errOnce : bool;
  err : error
}.

(** Modelled from the spec: the zero tracker [&errgroup.Group{}], without a
    context to cancel. *)
Definition errgroup_zero : errgroup_Group :=
  {| cancel := None; running := []; errOnce := false; err := NilIface |}.

(** Modelled from the spec: [errgroup.WithContext], not under src/. *)
Definition errgroup_WithContext (ctx : Context)
  : world -> (errgroup_Group * Context) * world :=
  fun w =>
    let '((ctx1, cancel1), w1) := context_WithCancel ctx w in
    (({| cancel := Some cancel1; running := []; errOnce := false;
         err := NilIface |}, ctx1), w1).

(** Modelled from the spec: [errgroup.Group.Go], not under src/. *)
Definition errgroup_Go (f : M error) (eg : errgroup_Group) : errgroup_Group :=
  {| cancel := cancel eg; running := (running eg ++ [f])%list;
     errOnce := errOnce eg; err := err eg |}.

(** Modelled from the spec: the cancellation of the derived context, which a
    tracker without a context skips: [if g.cancel != nil { g.cancel() }]. *)
Definition call_cancel (eg : errgroup_Group) (w : world) : world :=
  match cancel eg with
  | Some c => c w
  | None => w
  end.

(** Modelled from the spec: the end of the [k]-th running subtask of an
    [errgroup.Group].  It yields the tracker and the error the subtask
    returned; nothing happens when there is no such subtask.  A subtask that
    panics takes the process down. *)
Definition errgroup_finish (k : nat) (eg : errgroup_Group)
  : world -> outcome (errgroup_Group * list error) * world :=
  fun w =>
    match nth_error (running eg) k with
    | None => (Returns (eg, []), w)
    | Some f =>
        let '(o, w1) := f w in
        match o with
        | Panics p => (Panics p, w1)
        | Returns e =>
            let rest := (firstn k (running eg) ++ skipn (S k) (running eg))%list in
            if negb (is_nil e)
            then
              if errOnce eg
              then (Returns ({| cancel := cancel eg; running := rest;
                                errOnce := true; err := err eg |}, [e]), w1)
              else (Returns ({| cancel := cancel eg; running := rest;
                                errOnce := true; err := e |}, [e]),
                    call_cancel eg w1)
            else (Returns ({| cancel := cancel eg; running := rest;
                              errOnce := errOnce eg; err := err eg |}, [e]), w1)
        end
    end.

(** Modelled from the spec: the wait for the outstanding subtasks, not under
    src/.  The scheduler lets [n] running subtasks finish, one after the
    other; the head of [sched], taken modulo the number of running subtasks,
    picks the next one. *)
Fixpoint errgroup_drain (n : nat) (sched : list nat) (eg : errgroup_Group)
  (w : world) : outcome (errgroup_Group * list error) * world :=
  match n with
  | 0 => (Returns (eg, []), w)
  | S n' =>
      let k := Nat.modulo (hd 0 sched) (length (running eg)) in
      match errgroup_finish k eg w with
      | (Panics p, w1) => (Panics p, w1)
      | (Returns (eg1, done1), w1) =>
          match errgroup_drain n' (tl sched) eg1 w1 with
          | (Panics p, w2) => (Panics p, w2)
          | (Returns (eg2, done2), w2) => (Returns (eg2, (done1 ++ done2)%list), w2)
          end
      end
  end.

(** Modelled from the spec: [errgroup.Group.Wait], not under src/.  Besides
    the error and the tracker it yields the errors of the subtasks that
    finished while it was blocked, in the order in which they finished. *)
Definition errgroup_Wait (sched : list nat) (eg : errgroup_Group)
  : world -> outcome (error * errgroup_Group * list error) * world :=
  fun w =>
    match errgroup_drain (length (running eg)) sched eg w with
    | (Panics p, w1) => (Panics p, w1)
    | (Returns (eg1, done), w1) =>
        (Returns (err eg1, eg1, done), call_cancel eg1 w1)
    end.

(** ** Group *)

(** [type Group struct]: [g] is nil or points to the tracker, [once] is
    whether the [sync.Once] has run. *)
Record Group : Type := {
  g : option errgroup_Group;
  once : bool
}.

(** The zero [Group]. *)
Definition zero_Group : Group := {| g := None; once := false |}.

(** [func GroupWithContext(ctx context.Context)], which returns the pointer
    to the new Group and the derived context. *)
Definition GroupWithContext (ctx : Context) : world -> (Group * Context) * world :=
  fun w =>
    let '((eg, ctx1), w1) := errgroup_WithContext ctx w in
    (({| g := Some eg; once := false |}, ctx1), w1).

(** [func (g *Group) init()], with the number of times the function given
    to [g.once.Do] ran in this call: [sync.Once] runs it unless it is done,
    and is done afterwards. *)
Definition init_traced (gr : Group) : Group * nat :=
  if once gr
  then (gr, 0)
  else ({| g := match g gr with
                | None => Some errgroup_zero
                | Some eg => Some eg
                end;
           once := true |}, 1).

(** [func (g *Group) init()] *)
Definition init (gr : Group) : Group := fst (init_traced gr).

Definition nil_dereference : iface :=
  RuntimeError "invalid memory address or nil pointer dereference".

(** [func (g *Group) Go(fn func() error)] *)
Definition Group_Go (fn : M error) (gr : Group) : outcome Group :=
  let gr1 := init gr in
  match g gr1 with
  | None => Panics nil_dereference
  | Some eg => Returns {| g := Some (errgroup_Go (Do fn) eg); once := once gr1 |}
  end.

(** [func (g *Group) Wait() error] *)
Definition Group_Wait (sched : list nat) (gr : Group)
  : world -> outcome (error * Group * list error) * world :=
  fun w =>
    let gr1 := init gr in
    match g gr1 with
    | None => (Panics nil_dereference, w)
    | Some eg =>
        match errgroup_Wait sched eg w with
        | (Panics p, w1) => (Panics p, w1)
        | (Returns (e, eg1, done), w1) =>
            (Returns (e, {| g := Some eg1; once := once gr1 |}, done), w1)
        end
    end.

(** ** Runs of a program that uses one Group *)

(** What happens to a Group: a call of [Go], the scheduler letting the
    [k]-th running subtask finish, a call of [Wait]. *)
Inductive op : Type :=
| OpGo (fn : M error)
| OpFinish (k : nat)
| OpWait (sched : list nat).

(** What can be observed of it. *)
Inductive event : Type :=
| Allocated               (* g.g went from nil to a tracker *)
| Finished (e : error)    (* a subtask returned e to the tracker *)
| Waited (e : error).     (* Wait returned e *)

Definition allocated (before after : Group) : list event :=
  match g before, g after with
  | None, Some _ => [Allocated]
  | _, _ => []
  end.

Definition step (o : op) (gr : Group) (w : world)
  : outcome (Group * list event) * world :=
  match o with
  | OpGo fn =>
      match Group_Go fn gr with
      | Panics p => (Panics p, w)
      | Returns gr1 => (Returns (gr1, allocated gr gr1), w)
      end
  | OpFinish k =>
      match g gr with
      | None => (Returns (gr, []), w)
      | Some eg =>
          match errgroup_finish k eg w with
          | (Panics p, w1) => (Panics p, w1)
          | (Returns (eg1, done), w1) =>
              (Returns ({| g := Some eg1; once := once gr |}, map Finished done), w1)
          end
      end
  | OpWait sched =>
      match Group_Wait sched gr w with
      | (Panics p, w1) => (Panics p, w1)
      | (Returns (e, gr1, done), w1) =>
          (Returns (gr1, (allocated gr gr1 ++ map Finished done ++ [Waited e])%list), w1)
      end
  end.

Fixpoint run (ops : list op) (gr : Group) (w : world)
  : outcome (Group * list event) * world :=
  match ops with
  | [] => (Returns (gr, []), w)
  | o :: ops' =>
      match step o gr w with
      | (Panics p, w1) => (Panics p, w1)
      | (Returns (gr1, evs1), w1) =>
          match run ops' gr1 w1 with
          | (Panics p, w2) => (Panics p, w2)
          | (Returns (gr2, evs2), w2) => (Returns (gr2, (evs1 ++ evs2)%list), w2)
          end
      end
  end.

(** The errors of the subtasks that finished, in the order of finishing. *)
Fixpoint finished (evs : list event) : list error :=
  match evs with
  | [] => []
  | Finished e :: evs' => e :: finished evs'
  | _ :: evs' => finished evs'
  end.

(** The number of subtasks launched. *)
Fixpoint launched (ops : list op) : nat :=
  match ops with
  | [] => 0
  | OpGo _ :: ops' => S (launched ops')
  | _ :: ops' => launched ops'
  end.

(** The first non-nil error of a list, nil when there is none. *)
Fixpoint first_error (es : list error) : error :=
  match es with
  | [] => NilIface
  | e :: es' => if is_nil e then first_error es' else e
  end.

(** A Group before its first use: the zero Group, or the one
    [GroupWithContext] builds around the cancel function [c]. *)
Definition fresh_Group (c : option (world -> world)) : Group :=
  match c with
  | None => zero_Group
  | Some c1 =>
      {| g := Some {| cancel := Some c1; running := []; errOnce := false;
                      err := NilIface |};
         once := false |}
  end.

(** A subtask that returns, whatever the world it runs in. *)
Definition never_panics {A : Type} (t : M A) : Prop :=
  forall w : world, exists (a : A) (w1 : world), t w = (Returns a, w1).

(** What a tracker knows, when [es] are the errors of the subtasks finished
    so far and [n] subtasks have been launched. *)
Definition tracks (es : list error) (n : nat) (eg : errgroup_Group) : Prop :=
  Forall never_panics (running eg) /\
  err eg = first_error es /\
  errOnce eg = negb (is_nil (first_error es)) /\
  length es + length (running eg) = n.

(** The same for a Group, which may still be without a tracker. *)
Definition Group_tracks (es : list error) (n : nat) (gr : Group) : Prop :=
  match g gr with
  | None => once gr = false /\ es = [] /\ n = 0
  | Some eg => tracks es n eg
  end.

(** The number of times a tracker was allocated. *)
Fixpoint allocations (evs : list event) : nat :=
  match evs with
  | [] => 0
  | Allocated :: evs' => S (allocations evs')
  | _ :: evs' => allocations evs'
  end.

(** The number of calls of [Go] and [Wait]. *)
Fixpoint calls (ops : list op) : nat :=
  match ops with
  | [] => 0
  | OpFinish _ :: ops' => calls ops'
  | _ :: ops' => S (calls ops')
  end.

(** The functions given to [Go]. *)
Fixpoint functions (ops : list op) : list (M error) :=
  match ops with
  | [] => []
  | OpGo fn :: ops' => fn :: functions ops'
  | _ :: ops' => functions ops'
  end.

(** What a program sees of its Group: the errors [Wait] returned. *)
Fixpoint waited (evs : list event) : list error :=
  match evs with
  | [] => []
  | Waited e :: evs' => e :: waited evs'
  | _ :: evs' => waited evs'
  end.

(** The error of a final [Wait], after [ops]. *)
Definition wait_result (ops : list op) (sched : list nat) (gr : Group)
  (w : world) : option error :=
  match run ops gr w with
  | (Returns (gr1, _), w1) =>
      match Group_Wait sched gr1 w1 with
      | (Returns (e, _, _), _) => Some e
      | (Panics _, _) => None
      end
  | (Panics _, _) => None
  end.

(** [t] keeps the property [I] of the world. *)
Definition preserves {A : Type} (I : world -> Prop) (t : M A) : Prop :=
  forall w : world, I w -> I (snd (t w)).

(** The cancel function, if there is one, keeps [I]. *)
Definition cancel_preserves (I : world -> Prop) (c : option (world -> world))
  : Prop :=
  match c with
  | Some c1 => forall w : world, I w -> I (c1 w)
  | None => True
  end.

(** Every subtask of the Group and its cancel function keep [I]. *)
Definition Group_preserves (I : world -> Prop) (gr : Group) : Prop :=
  match g gr with
  | None => True
  | Some eg => Forall (preserves I) (running eg) /\ cancel_preserves I (cancel eg)
  end.

(** The cancel function of the tracker of a Group, if it has both. *)
Definition Group_cancel (gr : Group) : option (world -> world) :=
  match g gr with
  | Some eg => cancel eg
  | None => None
  end.

(** [t] cannot tell worlds that [R] relates apart: it ends the same way in
    both and leaves them related. *)
Definition respects {A : Type} (R : world -> world -> Prop) (t : M A) : Prop :=
  forall w w' : world,
    R w w' -> fst (t w) = fst (t w') /\ R (snd (t w)) (snd (t w')).

(** Two trackers in the same state, the first without a cancel function. *)
Definition similar (eg eg' : errgroup_Group) : Prop :=
  running eg = running eg' /\ errOnce eg = errOnce eg' /\ err eg = err eg' /\
  cancel eg = None.

(** Two Groups in the same state, the first born zero, the second born with
    a tracker. *)
Definition Group_similar (gr gr' : Group) : Prop :=
  exists eg' : errgroup_Group,
    g gr' = Some eg' /\
    similar (match g gr with Some eg => eg | None => errgroup_zero end) eg'.

(** ** What a Group must do, in the words of the spec *)

(** [if cancel != nil { cancel() }] *)
Definition cancel_opt (c : option (world -> world)) (w : world) : world :=
  match c with
  | Some c1 => c1 w
  | None => w
  end.

(** Some error of the list is not nil. *)
Definition has_failure (es : list error) : bool := negb (is_nil (first_error es)).

(** What happened, in order: the guarded call of a function given to [Go]
    ran to its end, or a call of [Wait] returned. *)
Inductive move : Type :=
| Ran (fn : M error)
| WaitReturned.

Fixpoint ran (ms : list move) : list (M error) :=
  match ms with
  | [] => []
  | Ran fn :: ms' => fn :: ran ms'
  | WaitReturned :: ms' => ran ms'
  end.

Fixpoint wait_returns (ms : list move) : nat :=
  match ms with
  | [] => 0
  | Ran _ :: ms' => wait_returns ms'
  | WaitReturned :: ms' => S (wait_returns ms')
  end.

(** The number of calls of [Wait]. *)
Fixpoint waits (ops : list op) : nat :=
  match ops with
  | [] => 0
  | OpWait _ :: ops' => S (waits ops')
  | _ :: ops' => waits ops'
  end.

(** The spec of a Group, on the functions themselves and with no Group at
    all: each subtask is the guarded call [Do fn] of its function, run on
    the world the moves before it left; the first subtask to return a
    non-nil error cancels the derived context, if there is one, and so does
    every return of [Wait].  [failed] says whether a subtask has failed
    before.  The result is the errors of the subtasks, in the order in
    which they ran, and the world at the end. *)
Fixpoint spec_replay (c : option (world -> world)) (ms : list move) (failed : bool)
  (w : world) : list error * world :=
  match ms with
  | [] => ([], w)
  | Ran fn :: ms' =>
      let '(o, w1) := Do fn w in
      let e := match o with Returns e => e | Panics _ => NilIface end in
      let w2 := if negb (is_nil e) && negb failed then cancel_opt c w1 else w1 in
      let '(es, w3) := spec_replay c ms' (failed || negb (is_nil e)) w2 in
      (e :: es, w3)
  | WaitReturned :: ms' => spec_replay c ms' failed (cancel_opt c w)
  end.

(** The Group is in the state the spec is in: the subtasks still running
    are the guarded calls of [pend], a first error has been retained just
    when [failed], and the cancel function is [c]. *)
Definition agrees (c : option (world -> world)) (pend : list (M error))
  (failed : bool) (gr : Group) : Prop :=
  match g gr with
  | None => pend = [] /\ failed = false /\ c = None
  | Some eg => running eg = map Do pend /\ errOnce eg = failed /\ cancel eg = c
  end.

(** ** Calls of Go and Wait that overlap *)

(** What [Go] does after [g.init()]. *)
Definition Group_Go_rest (fn : M error) (gr1 : Group) : outcome Group :=
  match g gr1 with
  | None => Panics nil_dereference
  | Some eg => Returns {| g := Some (errgroup_Go (Do fn) eg); once := once gr1 |}
  end.

(** What [Wait] does after [g.init()]. *)
Definition Group_Wait_rest (sched : list nat) (gr1 : Group)
  : world -> outcome (error * Group * list error) * world :=
  fun w =>
    match g gr1 with
    | None => (Panics nil_dereference, w)
    | Some eg =>
        match errgroup_Wait sched eg w with
        | (Panics p, w1) => (Panics p, w1)
        | (Returns (e, eg1, done), w1) =>
            (Returns (e, {| g := Some eg1; once := once gr1 |}, done), w1)
        end
    end.

(** The steps of goroutines that call [Go] and [Wait] on one Group at the
    same time.  A call is two steps, [g.init()] and the rest, and steps of
    other calls may come between them; [sync.Once] makes [g.init()] one
    step. *)
Inductive action : Type :=
| ActInit                        (* a call of Go or Wait runs g.init() *)
| ActGo (fn : M error)           (* a call of Go, after its g.init() *)
| ActFinish (k : nat)            (* the k-th running subtask finishes *)
| ActWait (sched : list nat).    (* a call of Wait, after its g.init() *)

(** Every call does its [g.init()] before its rest: [inflight] calls have
    done the first and not yet the second. *)
Fixpoint in_order (inflight : nat) (acts : list action) : bool :=
  match acts with
  | [] => true
  | ActInit :: acts' => in_order (S inflight) acts'
  | ActFinish _ :: acts' => in_order inflight acts'
  | ActGo _ :: acts' | ActWait _ :: acts' =>
      match inflight with
      | 0 => false
      | S n => in_order n acts'
      end
  end.

(** The number of calls that have run [g.init()]. *)
Fixpoint inits (acts : list action) : nat :=
  match acts with
  | [] => 0
  | ActInit :: acts' => S (inits acts')
  | _ :: acts' => inits acts'
  end.

(** The calls and the ends of subtasks, without the steps [g.init()]. *)
Fixpoint ops_of (acts : list action) : list op :=
  match acts with
  | [] => []
  | ActInit :: acts' => ops_of acts'
  | ActGo fn :: acts' => OpGo fn :: ops_of acts'
  | ActFinish k :: acts' => OpFinish k :: ops_of acts'
  | ActWait sched :: acts' => OpWait sched :: ops_of acts'
  end.

(** One step: the Group, what can be observed, and the number of times the
    function given to [g.once.Do] ran. *)
Definition act (a : action) (gr : Group) (w : world)
  : outcome (Group * list event * nat) * world :=
  match a with
  | ActInit =>
      (Returns (init gr, allocated gr (init gr), snd (init_traced gr)), w)
  | ActGo fn =>
      match Group_Go_rest fn gr with
      | Panics p => (Panics p, w)
      | Returns gr1 => (Returns (gr1, [], 0), w)
      end
  | ActFinish k =>
      match step (OpFinish k) gr w with
      | (Panics p, w1) => (Panics p, w1)
      | (Returns (gr1, evs), w1) => (Returns (gr1, evs, 0), w1)
      end
  | ActWait sched =>
      match Group_Wait_rest sched gr w with
      | (Panics p, w1) => (Panics p, w1)
      | (Returns (e, gr1, done), w1) =>
          (Returns (gr1, (map Finished done ++ [Waited e])%list, 0), w1)
      end
  end.

Fixpoint run_actions (acts : list action) (gr : Group) (w : world)
  : outcome (Group * list event * nat) * world :=
  match acts with
  | [] => (Returns (gr, [], 0), w)
  | a :: acts' =>
      match act a gr w with
      | (Panics p, w1) => (Panics p, w1)
      | (Returns (gr1, evs1, n1), w1) =>
          match run_actions acts' gr1 w1 with
          | (Panics p, w2) => (Panics p, w2)
          | (Returns (gr2, evs2, n2), w2) =>
              (Returns (gr2, (evs1 ++ evs2)%list, n1 + n2), w2)
          end
      end
  end.

(** [t] is [Do fn] for one of the functions [fns]. *)
Definition guarded_by (fns : list (M error)) (t : M error) : Prop :=
  exists fn : M error, In fn fns /\ t = Do fn.

(** [func() { SetPanicHandler(h); panic(p) }] *)
Definition set_handler_then_panic (h : func) (p : iface) : M unit :=
  fun w =>
    match SetPanicHandler h w with
    | (Returns _, w1) => (Panics p, w1)
    | (Panics q, w1) => (Panics q, w1)
    end.

(** The world with [h] in [panicHandler]. *)
Definition with_handler (h : iface) (w : world) : world :=
  {| panicHandler := {| v := h |}; log_output := log_output w; ext := ext w |}.

(** [strings.Contains(hay, needle)], as a proposition. *)
Definition contains (needle hay : string) : Prop :=
  exists before after : string, hay = before ++ needle ++ after.

(** The subtasks of a Group that have not finished. *)
Definition subtasks (gr : Group) : list (M error) :=
  match g gr with
  | None => []
  | Some eg => running eg
  end.

End Package.

(** ** A small program, for the examples *)

(** Payloads of foreign types are numbers, a frame is its function name, the
    rest of the program is a journal that the panic handlers write. *)
Definition demo : Universe :=
  {| T := nat; Frame := string; Context := nat; Ext := list string |}.

(** What a handler notes of the error it is given. *)
Definition demo_note (err : @error demo) : string :=
  match err with
  | OfPanicError (Build_PanicError _ NilIface) => "handled a PanicError of nil"
  | OfPanicError (Build_PanicError e _) => "handled " ++ msg e
  | _ => "handled another error"
  end.

Definition journal (line : string) (w : @world demo) : @world demo :=
  @Build_world demo (panicHandler w) (log_output w)
    ((ext w : list string) ++ [line])%list.

(** Closure 0 notes the error and returns, closure 1 notes it and panics
    with a string, closure 2 notes it and calls [panic(nil)]. *)
Definition demo_closures (code : nat) (err : @error demo) : @M demo unit :=
  fun w =>
    let w1 := journal (demo_note err) w in
    match code with
    | 0 => (Returns tt, w1)
    | 1 => (Panics (OfString "handler failed"), w1)
    | _ => (Panics NilIface, w1)
    end.

Definition demo_Env (nil_panics_are_nil : bool) : @Env demo :=
  {| fmt_T := fun _ (n : @T demo) => if Nat.eqb n 0 then "zero" else "number";
     fmt_func := fun _ => "0x47b0c0";
     fmt_Frame := fun f : @Frame demo => f;
     runtime_Callers := fun s =>
       match s with
       | in_Do => ["safe.Do.func1"; "runtime.gopanic"; "safe.Do"]
       | in_DoWithResult =>
           ["safe.DoWithResult.func1"; "runtime.gopanic"; "safe.DoWithResult"]
       | in_handlePanic => ["safe.handlePanic"; "safe.Go.func1.1"]
       | in_handlePanic_recover => ["safe.handlePanic.func1"; "runtime.gopanic"]
       end;
     panicnil := nil_panics_are_nil;
     closures := demo_closures;
     context_WithCancel := fun (ctx : @Context demo) w =>
       ((S ctx, journal "context canceled"), w) |}.

(** The runtime before Go 1.21 (or with GODEBUG panicnil=1), and since. *)
Definition classic : @Env demo := demo_Env true.
Definition go121 : @Env demo := demo_Env false.

(** The world at the start of the program. *)
Definition w0 : @world demo :=
  @Build_world demo {| v := NilIface |} [] ([] : list string).

(** [func() error { panic(nil) }], [func() error { panic("boom") }],
    [func() error { return nil }] and a function that returns the foreign
    error 7. *)
Definition panic_nil {A : Type} : @M demo A := fun w => (Panics NilIface, w).
Definition panic_boom {A : Type} : @M demo A :=
  fun w => (Panics (OfString "boom"), w).
Definition return_nil : @M demo (@error demo) := fun w => (Returns NilIface, w).
Definition return_seven : @M demo (@error demo) := fun w => (Returns (@Dyn demo 7), w).

(** The start of the program after [SetPanicHandler] with closure [code]. *)
Definition w_handler (code : nat) : @world demo :=
  snd (SetPanicHandler (closure code) w0).

(** Two subtasks, one that returns an error and one that panics, and two
    properties of the world that they keep: the log is empty (after [w0]), and
    two worlds differ in the journal at most. *)
Definition demo_ops : list (@op demo) := [OpGo return_seven; OpGo panic_boom].

Definition log_empty (w : @world demo) : Prop := log_output w = [].

Definition same_but_journal (a b : @world demo) : Prop :=
  panicHandler a = panicHandler b /\ log_output a = log_output b.

(** A schedule: the second running subtask finishes first. *)
Definition sched_10 : list nat := [1; 0].

(** The zero Group after [demo_ops], under the runtime [V]. *)
Definition demo_Group (V : @Env demo) : @Group demo :=
  {| g := Some {| cancel := None;
                  running := [Do (V := V) return_seven; Do (V := V) panic_boom];
                  errOnce := false;
                  err := NilIface |};
     once := true |}.

(** Two calls of [Go] that overlap on a zero Group: both run [g.init()]
    before either goes on. *)
Definition demo_acts : list (@action demo) :=
  [ActInit; ActInit; ActGo return_seven; ActGo panic_boom].

(** * Theorems *)

Section Theorems.
Context {U : Universe} {V : Env}.

Lemma recovered_not_nil (p : iface) :
  is_nil p = false -> recovered p = p.
Proof. destruct p; simpl; congruence. Qed.

Lemma recovered_nil_cases (p : iface) :
  is_nil (recovered p) = true -> p = NilIface /\ panicnil = true.
Proof.
  destruct p; simpl; try discriminate.
  destruct panicnil; simpl; [auto | discriminate].
Qed.

Lemma is_nil_panicError (s : site) (x : iface) : is_nil (panicError s x) = false.
Proof. reflexivity. Qed.

(** What [Do] returns, in one equation. *)
Lemma Do_eq (fn : M error) (w : world) :
  Do fn w =
  match fn w with
  | (Returns e, w1) => (Returns e, w1)
  | (Panics p, w1) =>
      (Returns (if is_nil (recovered p) then NilIface
                else panicError in_Do (recovered p)), w1)
  end.
Proof.
  unfold Do. destruct (fn w) as [[e | p] w1]; simpl; [reflexivity |].
  destruct (is_nil (recovered p)); reflexivity.
Qed.

(** C1, as amended: when [fn] panics with a payload [p] that is not nil, [Do]
    returns an error that is not nil, a [PanicError] whose [Panic()] is [p]
    itself. *)
Theorem Do_panic_payload (fn : M error) (w w1 : world) (p : iface) :
  fn w = (Panics p, w1) ->
  p <> NilIface ->
  exists pe : PanicError,
    Do fn w = (Returns (OfPanicError pe), w1) /\
    is_nil (OfPanicError pe) = false /\
    Panic pe = p.
Proof.
  intros Hfn Hp. rewrite Do_eq, Hfn.
  assert (Hnil : is_nil p = false) by (destruct p; simpl; congruence).
  rewrite (recovered_not_nil p Hnil), Hnil.
  eexists. repeat split.
Qed.

(** C2: when [fn] returns [e], nil or not, [Do] returns [e] and leaves the
    world as [fn] left it. *)
Theorem Do_pass_through (fn : M error) (w w1 : world) (e : error) :
  fn w = (Returns e, w1) ->
  Do fn w = (Returns e, w1).
Proof. intros Hfn. rewrite Do_eq, Hfn. reflexivity. Qed.

(** What [DoWithResult] returns, in one equation. *)
Lemma DoWithResult_eq (fn : M (iface * error)) (w : world) :
  DoWithResult fn w =
  match fn w with
  | (Returns re, w1) => (Returns re, w1)
  | (Panics p, w1) =>
      (Returns (NilIface,
                if is_nil (recovered p) then NilIface
                else panicError in_DoWithResult (recovered p)), w1)
  end.
Proof.
  unfold DoWithResult. destruct (fn w) as [[[res e] | p] w1]; simpl; [reflexivity |].
  destruct (is_nil (recovered p)); reflexivity.
Qed.

(** C3, as amended: when [fn] returns [(v, nil)], [DoWithResult] returns
    [(v, nil)]; when [fn] panics with [p], and [p] is not nil or the runtime
    does not hand a nil panic to [recover()] as nil, it returns the zero
    value nil and a [PanicError], whose [Panic()] is what [recover()] gave. *)
Theorem DoWithResult_spec (fn : M (iface * error)) (w w1 : world) :
  (forall v : iface,
      fn w = (Returns (v, NilIface), w1) ->
      DoWithResult fn w = (Returns (v, NilIface), w1)) /\
  (forall p : iface,
      fn w = (Panics p, w1) ->
      p <> NilIface \/ panicnil = false ->
      exists pe : PanicError,
        DoWithResult fn w = (Returns (NilIface, OfPanicError pe), w1) /\
        Panic pe = recovered p).
Proof.
  split.
  - intros v Hfn. rewrite DoWithResult_eq, Hfn. reflexivity.
  - intros p Hfn Hp. rewrite DoWithResult_eq, Hfn.
    destruct (is_nil (recovered p)) eqn:Hr.
    + apply recovered_nil_cases in Hr. destruct Hr as [-> Hmode].
      destruct Hp as [Hp | Hp]; congruence.
    + eexists. split; reflexivity.
Qed.


(** ** The global panic handler *)

Lemma append_assoc (a b c : string) : (a ++ b) ++ c = a ++ b ++ c.
Proof. induction a as [| ch a IH]; simpl; [reflexivity | now rewrite IH]. Qed.

Lemma append_empty_r (a : string) : a ++ EmptyString = a.
Proof. induction a as [| ch a IH]; simpl; [reflexivity | now rewrite IH]. Qed.

Lemma contains_refl (s : string) : contains s s.
Proof. exists EmptyString, EmptyString. simpl. now rewrite append_empty_r. Qed.

Lemma contains_append_l (n a b : string) : contains n a -> contains n (a ++ b).
Proof.
  intros [x [y ->]]. exists x, (y ++ b).
  now rewrite !append_assoc.
Qed.

Lemma contains_append_r (n a b : string) : contains n b -> contains n (a ++ b).
Proof.
  intros [x [y ->]]. exists (a ++ x), y.
  now rewrite !append_assoc.
Qed.

Create HintDb contains.
#[local] Hint Resolve contains_refl contains_append_l contains_append_r : contains.

(** The rendering of a [PanicError] under %+v shows its message and every
    frame of its stack. *)
Lemma Format_plus_contains (e : fundamental) :
  contains (msg e) (fundamental_Format true e) /\
  forall f : Frame, In f (stack e) -> contains (fmt_Frame f) (fundamental_Format true e).
Proof.
  unfold fundamental_Format. split; [auto with contains |].
  intros f Hf. apply contains_append_r.
  induction (stack e) as [| f1 fs IH]; [contradiction |].
  destruct Hf as [-> | Hf].
  - destruct fs; cbn [map String.concat]; auto with contains.
  - destruct fs as [| f2 fs]; [contradiction |].
    change (contains (fmt_Frame f)
              ((newline ++ fmt_Frame f1)
               ++ String.concat EmptyString
                    (map (fun f0 => newline ++ fmt_Frame f0) (f2 :: fs)))).
    auto with contains.
Qed.

(** What [handlePanic] does, in one equation. *)
Lemma handlePanic_eq (val : iface) (w : world) :
  handlePanic val w =
  let err := panicError in_handlePanic val in
  match fst (assert_func (v (panicHandler w))) with
  | nil_func => (Returns tt, log_Printf (Sprintf_v true err ++ newline) w)
  | closure code =>
      match closures code err w with
      | (Returns _, w1) => (Returns tt, w1)
      | (Panics q, w1) =>
          if is_nil (recovered q)
          then (Returns tt, w1)
          else (Returns tt,
                log_Printf ("panic in panic handler: "
                            ++ Sprintf_v true
                                 (panicError in_handlePanic_recover (recovered q))
                            ++ newline ++ "original: "
                            ++ Sprintf_v true err ++ newline) w1)
      end
  end.
Proof.
  unfold handlePanic, atomic_Load.
  destruct (assert_func (v (panicHandler w))) as [fn ok]. cbn [fst].
  destruct fn as [| code]; [reflexivity |].
  destruct (closures code (panicError in_handlePanic val) w) as [[u | q] w1];
    cbn [recover is_nil negb]; [reflexivity |].
  destruct (is_nil (recovered q)); reflexivity.
Qed.

Lemma handlePanic_returns (val : iface) (w : world) :
  exists w' : world, handlePanic val w = (Returns tt, w').
Proof.
  rewrite handlePanic_eq. cbn zeta.
  destruct (fst (assert_func (v (panicHandler w)))) as [| code]; [eauto |].
  destruct (closures code (panicError in_handlePanic val) w) as [[u | q] w1];
    [eauto |].
  destruct (is_nil (recovered q)); eauto.
Qed.

(** C10: [SetPanicHandler(nil)] returns without a panic and stores the nil
    func, which is not the nil interface; with it in [panicHandler], in any
    later world, [handlePanic] writes the same line to the log as when
    nothing was ever stored, and calls nothing. *)
Theorem SetPanicHandler_nil (w w2 : world) (val : iface) :
  SetPanicHandler nil_func w = (Returns tt, with_handler (OfFunc nil_func) w) /\
  is_nil (atomic_Load (panicHandler (with_handler (OfFunc nil_func) w))) = false /\
  handlePanic val (with_handler (OfFunc nil_func) w2)
  = (Returns tt,
     log_Printf (Sprintf_v true (panicError in_handlePanic val) ++ newline)
       (with_handler (OfFunc nil_func) w2)) /\
  handlePanic val (with_handler NilIface w2)
  = (Returns tt,
     log_Printf (Sprintf_v true (panicError in_handlePanic val) ++ newline)
       (with_handler NilIface w2)).
Proof. repeat split. Qed.

(** A handler stored by [SetPanicHandler] is the one the next [handlePanic]
    loads. *)
Lemma SetPanicHandler_then_Load (fn : func) (w : world) :
  SetPanicHandler fn w = (Returns tt, with_handler (OfFunc fn) w) /\
  assert_func (atomic_Load (panicHandler (with_handler (OfFunc fn) w)))
  = (fn, true).
Proof. split; reflexivity. Qed.

(** C7, as amended: [handlePanic] always returns.  When the handler panics
    with [q], and [q] is not nil or the runtime does not hand a nil panic to
    [recover()] as nil, one line is written to the log, which shows the
    [PanicError] of the handler's panic and the [PanicError] being handled.
    When no handler is set, the line written shows the message and every
    frame of the stack of the [PanicError]. *)
Theorem handlePanic_never_panics (val : iface) (w : world) :
  (exists w' : world, handlePanic val w = (Returns tt, w')) /\
  (forall (code : nat) (q : iface) (w1 : world),
      v (panicHandler w) = OfFunc (closure code) ->
      closures code (panicError in_handlePanic val) w = (Panics q, w1) ->
      q <> NilIface \/ panicnil = false ->
      exists line : string,
        handlePanic val w = (Returns tt, log_Printf line w1) /\
        contains (Sprintf_v true (panicError in_handlePanic_recover (recovered q)))
          line /\
        contains (Sprintf_v true (panicError in_handlePanic val)) line) /\
  (fst (assert_func (v (panicHandler w))) = nil_func ->
   exists line : string,
     handlePanic val w = (Returns tt, log_Printf line w) /\
     contains ("panic: " ++ Sprintf_v false val) line /\
     forall f : Frame,
       In f (runtime_Callers in_handlePanic) -> contains (fmt_Frame f) line).
Proof.
  split; [apply handlePanic_returns |]. split.
  - intros code q w1 Hh Hq Hnil. rewrite handlePanic_eq, Hh. cbn zeta.
    cbn [assert_func fst]. rewrite Hq.
    destruct (is_nil (recovered q)) eqn:Hr.
    + apply recovered_nil_cases in Hr. destruct Hr as [-> Hmode].
      destruct Hnil; congruence.
    + eexists. split; [reflexivity |]. split; auto 7 with contains.
  - intros Hh. rewrite handlePanic_eq, Hh. cbn zeta.
    eexists. split; [reflexivity |].
    pose proof (Format_plus_contains
                  {| msg := "panic: " ++ Sprintf_v false val;
                     stack := runtime_Callers in_handlePanic |}) as [Hm Hf].
    split.
    + apply contains_append_l. exact Hm.
    + intros f Hin. apply contains_append_l. apply Hf. exact Hin.
Qed.

(** What the goroutine of [Go] does, in one equation. *)
Lemma Go_eq (fn : M unit) (w : world) :
  Go fn w =
  match fn w with
  | (Returns _, w1) => (Returns tt, w1)
  | (Panics p, w1) =>
      if is_nil (recovered p) then (Returns tt, w1)
      else handlePanic (recovered p) w1
  end.
Proof.
  unfold Go. destruct (fn w) as [[u | p] w1]; cbn [recover is_nil negb];
    [reflexivity |].
  destruct (is_nil (recovered p)); reflexivity.
Qed.

(** C6, as amended: when [fn] panics with [p], the goroutine of [Go] ends
    without a panic.  When moreover [p] is not nil: if a handler is set, the
    world afterwards is the one a single call of the handler leaves, called
    on a [PanicError] whose [Panic()] is [p], with at most one more line in
    the log; if none is set, one line is written to the log, which shows
    the rendering of [p]. *)
Theorem Go_panic_dispatch (fn : M unit) (w w1 : world) (p : iface) :
  fn w = (Panics p, w1) ->
  (exists w2 : world, Go fn w = (Returns tt, w2)) /\
  (p <> NilIface ->
   (forall code : nat,
       v (panicHandler w1) = OfFunc (closure code) ->
       exists (pe : PanicError) (o : outcome unit) (w2 : world),
         Panic pe = p /\
         closures code (OfPanicError pe) w1 = (o, w2) /\
         (Go fn w = (Returns tt, w2) \/
          exists line : string, Go fn w = (Returns tt, log_Printf line w2))) /\
   (fst (assert_func (v (panicHandler w1))) = nil_func ->
    exists (pe : PanicError) (line : string),
      Panic pe = p /\
      line = Sprintf_v true (OfPanicError pe) ++ newline /\
      Go fn w = (Returns tt, log_Printf line w1) /\
      contains ("panic: " ++ Sprintf_v false p) line)).
Proof.
  intros Hfn. rewrite Go_eq, Hfn. split.
  - destruct (is_nil (recovered p)); [eauto | apply handlePanic_returns].
  - intros Hp.
    assert (Hnil : is_nil p = false) by (destruct p; simpl; congruence).
    rewrite (recovered_not_nil p Hnil), Hnil, handlePanic_eq. cbn zeta.
    split.
    + intros code Hh. rewrite Hh. cbn [assert_func fst].
      destruct (closures code (panicError in_handlePanic p) w1) as [o w2] eqn:Hc.
      exists (Build_PanicError
                {| msg := "panic: " ++ Sprintf_v false p;
                   stack := runtime_Callers in_handlePanic |} p), o, w2.
      split; [reflexivity |]. split; [exact Hc |].
      destruct o as [u | q]; [now left |].
      destruct (is_nil (recovered q)); [now left | right; eauto].
    + intros Hh. rewrite Hh.
      exists (Build_PanicError
                {| msg := "panic: " ++ Sprintf_v false p;
                   stack := runtime_Callers in_handlePanic |} p).
      eexists. split; [reflexivity |]. split; [reflexivity |].
      split; [reflexivity |].
      apply contains_append_l.
      apply (Format_plus_contains
               {| msg := "panic: " ++ Sprintf_v false p;
                  stack := runtime_Callers in_handlePanic |}).
Qed.

(** ** Group *)

Local Open Scope list_scope.

Lemma is_nil_true (x : iface) : is_nil x = true -> x = NilIface.
Proof. destruct x; simpl; congruence. Qed.

Lemma first_error_app (a b : list error) :
  first_error (a ++ b) =
  if is_nil (first_error a) then first_error b else first_error a.
Proof.
  induction a as [| e a IH]; simpl; [reflexivity |].
  destruct (is_nil e) eqn:He; [exact IH | now rewrite He].
Qed.

Lemma first_error_app_nil (a : list error) :
  first_error (a ++ [NilIface]) = first_error a.
Proof.
  rewrite first_error_app. destruct (is_nil (first_error a)) eqn:H; [| reflexivity].
  apply is_nil_true in H. now rewrite H.
Qed.

Lemma first_error_stable (a b : list error) :
  is_nil (first_error a) = false -> first_error (a ++ b) = first_error a.
Proof. intros H. now rewrite first_error_app, H. Qed.

Lemma Do_never_panics (fn : M error) : never_panics (Do fn).
Proof.
  intros w. rewrite Do_eq. destruct (fn w) as [[e | p] w1]; eauto.
Qed.

Section RemoveNth.
Variable A : Type.
Implicit Types (l : list A) (k : nat).

Lemma remove_nth_Forall (P : A -> Prop) l k :
  Forall P l -> Forall P (firstn k l ++ skipn (S k) l).
Proof.
  intros H. apply Forall_app. split.
  - rewrite <- (firstn_skipn k l) in H. now apply Forall_app in H.
  - rewrite <- (firstn_skipn (S k) l) in H. now apply Forall_app in H.
Qed.

Lemma remove_nth_length l k (x : A) :
  nth_error l k = Some x ->
  length l = S (length (firstn k l ++ skipn (S k) l)).
Proof.
  intros H.
  assert (Hk : k < length l) by (apply nth_error_Some; congruence).
  rewrite length_app, length_firstn, length_skipn. lia.
Qed.

End RemoveNth.

(** The end of a subtask keeps what the tracker knows up to date. *)
Lemma errgroup_finish_tracks (es : list error) (n k : nat)
  (eg : errgroup_Group) (w : world) :
  tracks es n eg ->
  exists (eg1 : errgroup_Group) (done : list error) (w1 : world),
    errgroup_finish k eg w = (Returns (eg1, done), w1) /\
    tracks (es ++ done) n eg1 /\
    cancel eg1 = cancel eg /\
    length done + length (running eg1) = length (running eg) /\
    (k < length (running eg) -> length done = 1).
Proof.
  intros (Hrun & Herr & Honce & Hlen). unfold errgroup_finish.
  destruct (nth_error (running eg) k) as [f |] eqn:Hk.
  - assert (Hf : never_panics f).
    { apply (proj1 (Forall_forall _ _) Hrun). eapply nth_error_In; eauto. }
    destruct (Hf w) as (e & w1 & Hfw). rewrite Hfw.
    pose proof (remove_nth_length _ _ _ _ Hk) as Hl.
    pose proof (remove_nth_Forall _ never_panics _ k Hrun) as Hrest.
    assert (Hl1 : length (es ++ [e])
                  + length (firstn k (running eg) ++ skipn (S k) (running eg))
                  = n) by (rewrite (length_app es); cbn [length]; lia).
    assert (Hl2 : length [e]
                  + length (firstn k (running eg) ++ skipn (S k) (running eg))
                  = length (running eg)) by (cbn [length]; lia).
    destruct (is_nil e) eqn:He; cbn [negb].
    + eexists _, [e], w1. split; [reflexivity |].
      apply is_nil_true in He. subst e.
      unfold tracks. cbn [cancel running errOnce err].
      rewrite first_error_app_nil. repeat split; auto.
    + destruct (errOnce eg) eqn:Ho.
      * eexists _, [e], w1. split; [reflexivity |].
        assert (Hfe : is_nil (first_error es) = false)
          by (destruct (is_nil (first_error es)); [discriminate | reflexivity]).
        unfold tracks. cbn [cancel running errOnce err].
        rewrite (first_error_stable es [e] Hfe), Hfe. repeat split; auto.
      * eexists _, [e], (call_cancel eg w1). split; [reflexivity |].
        assert (Hfe : is_nil (first_error es) = true)
          by (destruct (is_nil (first_error es)); [reflexivity | discriminate]).
        unfold tracks. cbn [cancel running errOnce err].
        rewrite first_error_app, Hfe. cbn [first_error]. rewrite He.
        rewrite He. cbn [negb]. repeat split; auto.
  - exists eg, [], w. split; [reflexivity |].
    rewrite app_nil_r. split; [repeat split; assumption |].
    split; [reflexivity |]. split; [reflexivity |].
    intros Hlt. apply nth_error_None in Hk. lia.
Qed.

(** Letting [m] subtasks finish. *)
Lemma errgroup_drain_tracks (m : nat) :
  forall (sched : list nat) (es : list error) (n : nat)
         (eg : errgroup_Group) (w : world),
    tracks es n eg ->
    exists (eg1 : errgroup_Group) (done : list error) (w1 : world),
      errgroup_drain m sched eg w = (Returns (eg1, done), w1) /\
      tracks (es ++ done) n eg1 /\
      cancel eg1 = cancel eg /\
      length (running eg1) = length (running eg) - m.
Proof.
  induction m as [| m IH]; intros sched es n eg w Ht.
  - exists eg, [], w. cbn [errgroup_drain]. rewrite app_nil_r.
    split; [reflexivity |]. split; [exact Ht |]. split; [reflexivity | lia].
  - cbn [errgroup_drain].
    destruct (errgroup_finish_tracks es n
                (Nat.modulo (hd 0 sched) (length (running eg))) eg w Ht)
      as (eg1 & done1 & w1 & Hfin & Ht1 & Hc1 & Hl1 & Hone).
    rewrite Hfin.
    destruct (IH (tl sched) (es ++ done1) n eg1 w1 Ht1)
      as (eg2 & done2 & w2 & Hdr & Ht2 & Hc2 & Hl2).
    rewrite Hdr. exists eg2, (done1 ++ done2)%list, w2.
    split; [reflexivity |]. rewrite app_assoc.
    split; [exact Ht2 |]. split; [congruence |].
    destruct (length (running eg)) as [| len] eqn:Hlen; [lia |].
    assert (Hk : Nat.modulo (hd 0 sched) (S len) < S len)
      by (apply Nat.mod_upper_bound; lia).
    specialize (Hone Hk). lia.
Qed.

(** [Wait] of the tracker returns once no subtask is left, with the first
    non-nil error of those that finished. *)
Lemma errgroup_Wait_tracks (sched : list nat) (es : list error) (n : nat)
  (eg : errgroup_Group) (w : world) :
  tracks es n eg ->
  exists (eg1 : errgroup_Group) (done : list error) (w1 : world),
    errgroup_Wait sched eg w = (Returns (first_error (es ++ done), eg1, done), w1) /\
    tracks (es ++ done) n eg1 /\
    cancel eg1 = cancel eg /\
    running eg1 = [].
Proof.
  intros Ht. unfold errgroup_Wait.
  destruct (errgroup_drain_tracks (length (running eg)) sched es n eg w Ht)
    as (eg1 & done & w1 & Hdr & Ht1 & Hc1 & Hl1).
  rewrite Hdr. exists eg1, done, (call_cancel eg1 w1).
  pose proof Ht1 as (Hrun & Herr & Honce & Hlen).
  rewrite Herr. split; [reflexivity |].
  split; [exact Ht1 |]. split; [exact Hc1 |].
  apply length_zero_iff_nil. lia.
Qed.

Lemma tracks_zero : tracks [] 0 errgroup_zero.
Proof. repeat split. constructor. Qed.

Lemma init_tracks (es : list error) (n : nat) (gr : Group) :
  Group_tracks es n gr ->
  exists eg : errgroup_Group,
    g (init gr) = Some eg /\ once (init gr) = true /\ tracks es n eg /\
    (g gr = None -> eg = errgroup_zero) /\
    (forall eg0 : errgroup_Group, g gr = Some eg0 -> eg = eg0).
Proof.
  unfold Group_tracks, init. intros H.
  destruct gr as [[eg |] [|]]; cbn in *.
  - exists eg. split; [reflexivity |]. split; [reflexivity |].
    split; [exact H |]. split; [discriminate | congruence].
  - exists eg. split; [reflexivity |]. split; [reflexivity |].
    split; [exact H |]. split; [discriminate | congruence].
  - destruct H as (H & _). discriminate H.
  - destruct H as (_ & -> & ->). exists errgroup_zero.
    split; [reflexivity |]. split; [reflexivity |].
    split; [exact tracks_zero |]. split; [reflexivity | discriminate].
Qed.

Lemma Group_Go_tracks (es : list error) (n : nat) (fn : M error) (gr : Group) :
  Group_tracks es n gr ->
  exists gr1 : Group,
    Group_Go fn gr = Returns gr1 /\ Group_tracks es (S n) gr1 /\
    g gr1 <> None /\ once gr1 = true /\
    subtasks gr1 = (subtasks gr ++ [Do fn])%list.
Proof.
  intros H. destruct (init_tracks es n gr H) as (eg & Hg & Ho & Ht & Hz & Hs).
  unfold Group_Go. rewrite Hg, Ho. eexists. split; [reflexivity |].
  destruct Ht as (Hrun & Herr & Honce & Hlen).
  unfold Group_tracks, tracks, subtasks. cbn.
  repeat split; try assumption; try discriminate.
  - apply Forall_app. split; [assumption |].
    constructor; [apply Do_never_panics | constructor].
  - rewrite length_app. cbn. lia.
  - destruct (g gr) as [eg0 |] eqn:Hg0.
    + now rewrite (Hs eg0 eq_refl).
    + now rewrite (Hz eq_refl).
Qed.

Lemma Group_Wait_tracks (sched : list nat) (es : list error) (n : nat)
  (gr : Group) (w : world) :
  Group_tracks es n gr ->
  exists (gr1 : Group) (done : list error) (w1 : world),
    Group_Wait sched gr w = (Returns (first_error (es ++ done), gr1, done), w1) /\
    Group_tracks (es ++ done) n gr1 /\
    g gr1 <> None /\ once gr1 = true /\
    subtasks gr1 = [].
Proof.
  intros H. destruct (init_tracks es n gr H) as (eg & Hg & Ho & Ht & _).
  unfold Group_Wait. rewrite Hg, Ho.
  destruct (errgroup_Wait_tracks sched es n eg w Ht)
    as (eg1 & done & w1 & Hw & Ht1 & Hc1 & Hr1).
  rewrite Hw. eexists _, done, w1. split; [reflexivity |].
  unfold Group_tracks, subtasks. cbn [g once].
  split; [exact Ht1 |]. split; [discriminate |]. split; [reflexivity | exact Hr1].
Qed.

Lemma finished_app (a b : list event) :
  finished (a ++ b) = (finished a ++ finished b)%list.
Proof.
  induction a as [| [| e | e] a IH]; cbn; congruence.
Qed.

Lemma finished_map_Finished (es : list error) : finished (map Finished es) = es.
Proof. induction es as [| e es IH]; cbn; congruence. Qed.

Lemma finished_allocated (a b : Group) : finished (allocated a b) = [].
Proof. unfold allocated. destruct (g a), (g b); reflexivity. Qed.

Lemma step_tracks (o : op) (es : list error) (n : nat) (gr : Group) (w : world) :
  Group_tracks es n gr ->
  exists (gr1 : Group) (evs : list event) (w1 : world),
    step o gr w = (Returns (gr1, evs), w1) /\
    Group_tracks (es ++ finished evs) (n + launched [o]) gr1.
Proof.
  intros H. destruct o as [fn | k | sched]; cbn [step launched].
  - destruct (Group_Go_tracks es n fn gr H) as (gr1 & HGo & Ht & _).
    rewrite HGo. eexists _, _, w. split; [reflexivity |].
    rewrite finished_allocated, app_nil_r. now replace (n + 1) with (S n) by lia.
  - unfold Group_tracks in H. destruct (g gr) as [eg |] eqn:Hg.
    + destruct (errgroup_finish_tracks es n k eg w H)
        as (eg1 & done & w1 & Hfin & Ht1 & _).
      rewrite Hfin. eexists _, _, w1. split; [reflexivity |].
      rewrite finished_map_Finished, Nat.add_0_r. exact Ht1.
    + exists gr, [], w. split; [reflexivity |].
      rewrite app_nil_r, Nat.add_0_r. unfold Group_tracks. now rewrite Hg.
  - destruct (Group_Wait_tracks sched es n gr w H)
      as (gr1 & done & w1 & HW & Ht1 & _).
    rewrite HW. eexists _, _, w1. split; [reflexivity |].
    rewrite !finished_app, finished_allocated, finished_map_Finished.
    cbn. rewrite app_nil_r, Nat.add_0_r. exact Ht1.
Qed.

(** No run of a program on its Group panics, and the tracker knows the
    errors of the subtasks that finished. *)
Lemma run_tracks (ops : list op) :
  forall (es : list error) (n : nat) (gr : Group) (w : world),
    Group_tracks es n gr ->
    exists (gr1 : Group) (evs : list event) (w1 : world),
      run ops gr w = (Returns (gr1, evs), w1) /\
      Group_tracks (es ++ finished evs) (n + launched ops) gr1.
Proof.
  induction ops as [| o ops IH]; intros es n gr w H.
  - exists gr, [], w. cbn. rewrite app_nil_r, Nat.add_0_r. now split.
  - cbn [run].
    destruct (step_tracks o es n gr w H) as (gr1 & evs1 & w1 & Hs & Ht1).
    rewrite Hs.
    destruct (IH _ _ gr1 w1 Ht1) as (gr2 & evs2 & w2 & Hr & Ht2).
    rewrite Hr. exists gr2, (evs1 ++ evs2)%list, w2. split; [reflexivity |].
    rewrite finished_app, app_assoc.
    replace (n + launched (o :: ops)) with (n + launched [o] + launched ops);
      [exact Ht2 |].
    destruct o; cbn; lia.
Qed.

Lemma fresh_Group_tracks (c : option (world -> world)) :
  Group_tracks [] 0 (fresh_Group c).
Proof.
  destruct c as [c |]; cbn; [| auto].
  repeat split. constructor.
Qed.


(** *** What a Group does to the world *)

Section Frame.
Variable I : world -> Prop.

Lemma Do_preserves (fn : M error) : preserves I fn -> preserves I (Do fn).
Proof.
  intros H w Hw. rewrite Do_eq. specialize (H w Hw).
  destruct (fn w) as [[e | p] w1]; exact H.
Qed.

Lemma errgroup_finish_preserves (k : nat) (eg eg1 : errgroup_Group)
  (done : list error) (w w1 : world) :
  Forall (preserves I) (running eg) ->
  cancel_preserves I (cancel eg) ->
  I w ->
  errgroup_finish k eg w = (Returns (eg1, done), w1) ->
  Forall (preserves I) (running eg1) /\ cancel eg1 = cancel eg /\ I w1.
Proof.
  intros Hrun Hc Hw. unfold errgroup_finish.
  destruct (nth_error (running eg) k) as [f |] eqn:Hk.
  - assert (Hf : I (snd (f w))).
    { apply (proj1 (Forall_forall _ _) Hrun f); [| exact Hw].
      eapply nth_error_In; eauto. }
    pose proof (remove_nth_Forall _ (preserves I) _ k Hrun) as Hrest.
    destruct (f w) as [[e | p] w2]; [| discriminate]. cbn [snd] in Hf.
    destruct (is_nil e); cbn [negb];
      [| destruct (errOnce eg)]; intros [= <- <- <-]; cbn [running cancel];
      repeat split; try assumption.
    unfold call_cancel. unfold cancel_preserves in Hc.
    destruct (cancel eg); auto.
  - intros [= <- <- <-]. auto.
Qed.

Lemma errgroup_drain_preserves (m : nat) :
  forall (sched : list nat) (eg eg1 : errgroup_Group) (done : list error)
         (w w1 : world),
    Forall (preserves I) (running eg) ->
    cancel_preserves I (cancel eg) ->
    I w ->
    errgroup_drain m sched eg w = (Returns (eg1, done), w1) ->
    Forall (preserves I) (running eg1) /\ cancel eg1 = cancel eg /\ I w1.
Proof.
  induction m as [| m IH]; intros sched eg eg1 done w w1 Hrun Hc Hw;
    cbn [errgroup_drain].
  - intros [= <- <- <-]. auto.
  - destruct (errgroup_finish _ eg w) as [[[eg2 done2] | p] w2] eqn:Hfin;
      [| discriminate].
    destruct (errgroup_finish_preserves _ _ _ _ _ _ Hrun Hc Hw Hfin)
      as (Hrun2 & Hc2 & Hw2).
    destruct (errgroup_drain m (tl sched) eg2 w2) as [[[eg3 done3] | p] w3] eqn:Hdr;
      [| discriminate].
    intros [= <- <- <-].
    rewrite <- Hc2 in Hc.
    destruct (IH _ _ _ _ _ _ Hrun2 Hc Hw2 Hdr) as (Hrun3 & Hc3 & Hw3).
    repeat split; try assumption. congruence.
Qed.

Lemma init_preserves (gr : Group) :
  Group_preserves I gr -> Group_preserves I (init gr).
Proof.
  unfold Group_preserves, init.
  destruct gr as [[eg |] [|]]; cbn; auto.
Qed.

Lemma step_preserves (o : op) (gr gr1 : Group) (evs : list event)
  (w w1 : world) :
  Forall (preserves I) (functions [o]) ->
  Group_preserves I gr ->
  I w ->
  step o gr w = (Returns (gr1, evs), w1) ->
  Group_preserves I gr1 /\ I w1.
Proof.
  intros Hfn Hgr Hw. destruct o as [fn | k | sched]; cbn [step].
  - unfold Group_Go. pose proof (init_preserves gr Hgr) as Hi.
    unfold Group_preserves in Hi.
    destruct (g (init gr)) as [eg |]; [| discriminate].
    intros [= <- <- <-]. split; [| exact Hw].
    unfold Group_preserves. cbn. destruct Hi as (Hrun & Hc).
    split; [| exact Hc]. apply Forall_app. split; [exact Hrun |].
    constructor; [| constructor]. apply Do_preserves.
    now inversion Hfn.
  - unfold Group_preserves in Hgr.
    destruct (g gr) as [eg |] eqn:Hg.
    + destruct Hgr as (Hrun & Hc).
      destruct (errgroup_finish k eg w) as [[[eg1 done] | p] w2] eqn:Hfin;
        [| discriminate].
      intros [= <- <- <-].
      destruct (errgroup_finish_preserves _ _ _ _ _ _ Hrun Hc Hw Hfin)
        as (Hrun1 & Hc1 & Hw1).
      split; [| exact Hw1]. unfold Group_preserves. cbn.
      split; [exact Hrun1 | now rewrite Hc1].
    + intros [= <- <- <-]. split; [| exact Hw].
      unfold Group_preserves. now rewrite Hg.
  - unfold Group_Wait, errgroup_Wait.
    pose proof (init_preserves gr Hgr) as Hi. unfold Group_preserves in Hi.
    destruct (g (init gr)) as [eg |]; [| discriminate].
    destruct Hi as (Hrun & Hc).
    destruct (errgroup_drain _ sched eg w) as [[[eg1 done] | p] w2] eqn:Hdr;
      [| discriminate].
    intros [= <- <- <-].
    destruct (errgroup_drain_preserves _ _ _ _ _ _ _ Hrun Hc Hw Hdr)
      as (Hrun1 & Hc1 & Hw1).
    rewrite <- Hc1 in Hc.
    split.
    + unfold Group_preserves. cbn. now split.
    + unfold call_cancel. unfold cancel_preserves in Hc.
      destruct (cancel eg1); auto.
Qed.

Lemma functions_app (a b : list op) :
  functions (a ++ b) = functions a ++ functions b.
Proof.
  induction a as [| [fn | k | sched] a IH]; cbn; congruence.
Qed.

(** A property of the world that the functions given to [Go] and the cancel
    function keep is kept by a whole run. *)
Lemma run_preserves (ops : list op) :
  forall (gr gr1 : Group) (evs : list event) (w w1 : world),
    Forall (preserves I) (functions ops) ->
    Group_preserves I gr ->
    I w ->
    run ops gr w = (Returns (gr1, evs), w1) ->
    Group_preserves I gr1 /\ I w1.
Proof.
  induction ops as [| o ops IH]; intros gr gr1 evs w w1 Hfn Hgr Hw; cbn [run].
  - intros [= <- <- <-]. auto.
  - change (o :: ops) with ([o] ++ ops) in Hfn.
    rewrite functions_app in Hfn. apply Forall_app in Hfn.
    destruct Hfn as (Hfo & Hfops).
    destruct (step o gr w) as [[[gr2 evs2] | p] w2] eqn:Hs; [| discriminate].
    destruct (step_preserves _ _ _ _ _ _ Hfo Hgr Hw Hs) as (Hgr2 & Hw2).
    destruct (run ops gr2 w2) as [[[gr3 evs3] | p] w3] eqn:Hr; [| discriminate].
    intros [= <- <- <-]. eapply IH; eauto.
Qed.

Lemma fresh_Group_preserves (c : option (world -> world)) :
  cancel_preserves I c -> Group_preserves I (fresh_Group c).
Proof.
  destruct c as [c |]; cbn; [| auto].
  intros Hc. split; [constructor | exact Hc].
Qed.

End Frame.

(** *** The tracker is allocated once and never gets a cancel function *)

Lemma allocations_app (a b : list event) :
  allocations (a ++ b) = allocations a + allocations b.
Proof.
  induction a as [| [| e | e] a IH]; cbn; congruence.
Qed.

Lemma allocations_map_Finished (es : list error) :
  allocations (map Finished es) = 0.
Proof. induction es as [| e es IH]; cbn; congruence. Qed.

Lemma errgroup_finish_cancel (k : nat) (eg eg1 : errgroup_Group)
  (done : list error) (w w1 : world) :
  errgroup_finish k eg w = (Returns (eg1, done), w1) -> cancel eg1 = cancel eg.
Proof.
  intros H.
  apply (errgroup_finish_preserves (fun _ => True) k eg eg1 done w w1); auto.
  - apply Forall_forall. intros t _ w2 _. exact Logic.I.
  - unfold cancel_preserves. destruct (cancel eg); auto.
Qed.

Lemma errgroup_drain_cancel (m : nat) (sched : list nat)
  (eg eg1 : errgroup_Group) (done : list error) (w w1 : world) :
  errgroup_drain m sched eg w = (Returns (eg1, done), w1) -> cancel eg1 = cancel eg.
Proof.
  intros H.
  apply (errgroup_drain_preserves (fun _ => True) m sched eg eg1 done w w1); auto.
  - apply Forall_forall. intros t _ w2 _. exact Logic.I.
  - unfold cancel_preserves. destruct (cancel eg); auto.
Qed.

Lemma step_allocations (o : op) (gr gr1 : Group) (evs : list event)
  (w w1 : world) :
  step o gr w = (Returns (gr1, evs), w1) ->
  Group_cancel gr1 = Group_cancel gr /\
  allocations evs = match g gr with Some _ => 0 | None => calls [o] end /\
  match g gr1 with
  | Some _ => g gr <> None \/ calls [o] = 1
  | None => g gr = None /\ calls [o] = 0
  end.
Proof.
  destruct o as [fn | k | sched]; cbn [step calls].
  - unfold Group_Go, init, Group_cancel.
    destruct gr as [[eg |] [|]]; cbn; intros [= <- <- <-]; cbn;
      repeat split; auto; left; discriminate.
  - unfold Group_cancel. destruct (g gr) as [eg |] eqn:Hg.
    + destruct (errgroup_finish k eg w) as [[[eg1 done] | p] w2] eqn:Hfin;
        [| discriminate].
      intros [= <- <- <-]. cbn [g].
      rewrite allocations_map_Finished.
      rewrite (errgroup_finish_cancel _ _ _ _ _ _ Hfin).
      repeat split. left. discriminate.
    + intros [= <- <- <-]. rewrite Hg. auto.
  - unfold Group_Wait, errgroup_Wait, init, init_traced, Group_cancel.
    destruct gr as [[eg |] [|]]; cbn [g once fst];
      try (intros [= <- <- <-]; fail);
      match goal with
      | |- context [errgroup_drain ?m sched ?e w] =>
          destruct (errgroup_drain m sched e w) as [[[eg1 done] | p] w2] eqn:Hdr;
          [| discriminate]
      end;
      intros [= <- <- <-]; cbn [g];
      rewrite (errgroup_drain_cancel _ _ _ _ _ _ _ Hdr);
      unfold allocated; cbn [g app allocations];
      rewrite ?allocations_app, ?allocations_map_Finished; cbn;
      repeat split; auto; left; discriminate.
Qed.

Lemma run_allocations (ops : list op) :
  forall (gr gr1 : Group) (evs : list event) (w w1 : world),
    run ops gr w = (Returns (gr1, evs), w1) ->
    Group_cancel gr1 = Group_cancel gr /\
    allocations evs
    = match g gr with Some _ => 0 | None => Nat.min 1 (calls ops) end /\
    match g gr1 with
    | Some _ => g gr <> None \/ 1 <= calls ops
    | None => g gr = None /\ calls ops = 0
    end.
Proof.
  induction ops as [| o ops IH]; intros gr gr1 evs w w1; cbn [run].
  - intros [= <- <- <-]. split; [reflexivity |].
    destruct (g gr); cbn; split; auto. left. discriminate.
  - destruct (step o gr w) as [[[gr2 evs2] | p] w2] eqn:Hs; [| discriminate].
    destruct (run ops gr2 w2) as [[[gr3 evs3] | p] w3] eqn:Hr; [| discriminate].
    intros [= <- <- <-].
    destruct (step_allocations _ _ _ _ _ _ Hs) as (Hc & Ha & Hg).
    destruct (IH _ _ _ _ _ Hr) as (Hc3 & Ha3 & Hg3).
    split; [congruence |].
    rewrite allocations_app, Ha, Ha3.
    assert (Hcalls : calls (o :: ops) = calls [o] + calls ops)
      by (destruct o; reflexivity).
    rewrite Hcalls.
    destruct (g gr) as [eg |], (g gr2) as [eg2 |], (g gr3) as [eg3 |];
      repeat match goal with
             | H : _ /\ _ |- _ => destruct H
             | H : _ \/ _ |- _ => destruct H
             end;
      try congruence; try (split; [lia |]); auto; try lia;
      try (left; discriminate); try (right; lia);
      try (split; [reflexivity | lia]).
Qed.

(** *** A zero Group and a Group with a context, side by side *)

Section Simulation.
Variable R : world -> world -> Prop.

Lemma Do_respects (fn : M error) : respects R fn -> respects R (Do fn).
Proof.
  intros H w w' HR. rewrite !Do_eq. destruct (H w w' HR) as (Ho & Hw).
  destruct (fn w) as [o1 w1], (fn w') as [o2 w2]. cbn [fst snd] in Ho, Hw.
  subst o2. destruct o1; cbn [fst snd]; auto.
Qed.

Lemma errgroup_finish_similar (k : nat) (eg eg' eg1 eg1' : errgroup_Group)
  (done done' : list error) (w w' w1 w1' : world) :
  similar eg eg' ->
  Forall (respects R) (running eg) ->
  (forall c : world -> world,
      cancel eg' = Some c -> forall a b : world, R a b -> R a (c b)) ->
  R w w' ->
  errgroup_finish k eg w = (Returns (eg1, done), w1) ->
  errgroup_finish k eg' w' = (Returns (eg1', done'), w1') ->
  similar eg1 eg1' /\ Forall (respects R) (running eg1) /\
  cancel eg1' = cancel eg' /\ done = done' /\ R w1 w1'.
Proof.
  intros (Hr & Ho & He & Hc) Hrun Hcr HR. unfold errgroup_finish.
  rewrite <- Hr, <- Ho, <- He.
  destruct (nth_error (running eg) k) as [f |] eqn:Hk.
  - assert (Hf : respects R f).
    { apply (proj1 (Forall_forall _ _) Hrun f). eapply nth_error_In; eauto. }
    destruct (Hf w w' HR) as (Hfo & Hfw).
    pose proof (remove_nth_Forall _ (respects R) _ k Hrun) as Hrest.
    destruct (f w) as [o1 w2], (f w') as [o2 w2']. cbn [fst snd] in Hfo, Hfw.
    subst o2. destruct o1 as [e | p]; [| discriminate].
    unfold similar.
    destruct (is_nil e); cbn [negb]; [| destruct (errOnce eg)];
      intros [= <- <- <-] [= <- <- <-]; cbn [running cancel errOnce err];
      rewrite <- ?Hr; repeat split; try assumption.
    unfold call_cancel. rewrite Hc.
    destruct (cancel eg') as [c |] eqn:Hc'; [| assumption].
    now apply (Hcr c).
  - intros [= <- <- <-] [= <- <- <-]. unfold similar. repeat split; assumption.
Qed.

Lemma errgroup_drain_similar (m : nat) :
  forall (sched : list nat) (eg eg' eg1 eg1' : errgroup_Group)
         (done done' : list error) (w w' w1 w1' : world),
    similar eg eg' ->
    Forall (respects R) (running eg) ->
    (forall c : world -> world,
        cancel eg' = Some c -> forall a b : world, R a b -> R a (c b)) ->
    R w w' ->
    errgroup_drain m sched eg w = (Returns (eg1, done), w1) ->
    errgroup_drain m sched eg' w' = (Returns (eg1', done'), w1') ->
    similar eg1 eg1' /\ Forall (respects R) (running eg1) /\
    cancel eg1' = cancel eg' /\ done = done' /\ R w1 w1'.
Proof.
  induction m as [| m IH];
    intros sched eg eg' eg1 eg1' done done' w w' w1 w1' Hs Hrun Hcr HR;
    cbn [errgroup_drain].
  - intros [= <- <- <-] [= <- <- <-]. auto.
  - pose proof Hs as (Hr & _). rewrite <- Hr.
    destruct (errgroup_finish _ eg w) as [[[eg2 done2] | p] w2] eqn:Hfin;
      [| discriminate].
    destruct (errgroup_finish _ eg' w') as [[[eg2' done2'] | p] w2'] eqn:Hfin';
      [| discriminate].
    destruct (errgroup_finish_similar _ _ _ _ _ _ _ _ _ _ _ Hs Hrun Hcr HR Hfin Hfin')
      as (Hs2 & Hrun2 & Hc2 & Hd2 & HR2).
    destruct (errgroup_drain m (tl sched) eg2 w2) as [[[eg3 done3] | p] w3] eqn:Hdr;
      [| discriminate].
    destruct (errgroup_drain m (tl sched) eg2' w2') as [[[eg3' done3'] | p] w3'] eqn:Hdr';
      [| discriminate].
    intros [= <- <- <-] [= <- <- <-].
    rewrite <- Hc2 in Hcr.
    destruct (IH _ _ _ _ _ _ _ _ _ _ _ Hs2 Hrun2 Hcr HR2 Hdr Hdr')
      as (Hs3 & Hrun3 & Hc3 & Hd3 & HR3).
    split; [exact Hs3 |]. split; [exact Hrun3 |]. split; [congruence |].
    split; [congruence | exact HR3].
Qed.

Lemma init_tracker (gr : Group) (eg1 : errgroup_Group) :
  g (init gr) = Some eg1 ->
  eg1 = match g gr with Some eg => eg | None => errgroup_zero end.
Proof.
  unfold init. destruct gr as [[eg |] [|]]; cbn; congruence.
Qed.

Lemma init_with_tracker (gr : Group) (eg : errgroup_Group) :
  g gr = Some eg -> g (init gr) = Some eg.
Proof.
  unfold init. destruct gr as [[eg0 |] [|]]; cbn; congruence.
Qed.

Lemma subtasks_tracker (gr : Group) :
  subtasks gr = running (match g gr with Some eg => eg | None => errgroup_zero end).
Proof. unfold subtasks. now destruct (g gr). Qed.

Lemma waited_app (a b : list event) : waited (a ++ b) = waited a ++ waited b.
Proof.
  induction a as [| [| e | e] a IH]; cbn; congruence.
Qed.

Lemma waited_map_Finished (es : list error) : waited (map Finished es) = [].
Proof. induction es as [| e es IH]; cbn; congruence. Qed.

Lemma waited_allocated (a b : Group) : waited (allocated a b) = [].
Proof. unfold allocated. destruct (g a), (g b); reflexivity. Qed.

Lemma step_similar (o : op) (gr gr' gr1 gr1' : Group) (evs evs' : list event)
  (w w' w1 w1' : world) :
  Group_similar gr gr' ->
  Forall (respects R) (subtasks gr) ->
  (forall c : world -> world,
      Group_cancel gr' = Some c -> forall a b : world, R a b -> R a (c b)) ->
  Forall (respects R) (functions [o]) ->
  R w w' ->
  step o gr w = (Returns (gr1, evs), w1) ->
  step o gr' w' = (Returns (gr1', evs'), w1') ->
  Group_similar gr1 gr1' /\ Forall (respects R) (subtasks gr1) /\
  Group_cancel gr1' = Group_cancel gr' /\
  finished evs = finished evs' /\ waited evs = waited evs' /\ R w1 w1'.
Proof.
  intros (eg' & Hg' & Hs) Hrun Hcr Hfn HR.
  rewrite subtasks_tracker in Hrun.
  unfold Group_cancel in Hcr |- *. rewrite Hg' in Hcr |- *.
  pose proof Hs as (Hr & Ho & He & Hc).
  destruct o as [fn | k | sched]; cbn [step].
  - unfold Group_Go. rewrite (init_with_tracker gr' eg' Hg').
    destruct (g (init gr)) as [eg1 |] eqn:Hi; [| discriminate].
    apply init_tracker in Hi. subst eg1.
    intros [= <- <- <-] [= <- <- <-].
    rewrite !finished_allocated, !waited_allocated.
    unfold Group_similar, similar, subtasks. cbn [g errgroup_Go running cancel errOnce err].
    split; [eexists; split; [reflexivity |]; rewrite Hr; auto |].
    split; [| auto].
    apply Forall_app. split; [exact Hrun |].
    constructor; [| constructor]. apply Do_respects. now inversion Hfn.
  - rewrite Hg'.
    destruct (errgroup_finish k eg' w') as [[[eg1' done'] | p] w2'] eqn:Hfin';
      [| discriminate].
    destruct (g gr) as [eg |] eqn:Hg.
    + destruct (errgroup_finish k eg w) as [[[eg1 done] | p] w2] eqn:Hfin;
        [| discriminate].
      intros [= <- <- <-] [= <- <- <-].
      destruct (errgroup_finish_similar _ _ _ _ _ _ _ _ _ _ _ Hs Hrun Hcr HR Hfin Hfin')
        as (Hs1 & Hrun1 & Hc1 & Hd1 & HR1).
      subst done'. unfold Group_similar, subtasks. cbn [g].
      split; [exists eg1'; auto |]. auto.
    + intros [= <- <- <-] [= <- <- <-].
      unfold errgroup_finish in Hfin'. rewrite <- Hr in Hfin'. cbn [running errgroup_zero] in Hfin'.
      destruct k; cbn in Hfin'; injection Hfin' as <- <- <-;
        unfold Group_similar, subtasks; cbn [g map finished waited]; rewrite Hg;
        (split; [exists eg'; auto |]); auto.
  - unfold Group_Wait, errgroup_Wait. rewrite (init_with_tracker gr' eg' Hg').
    destruct (g (init gr)) as [eg1 |] eqn:Hi; [| discriminate].
    apply init_tracker in Hi. subst eg1. rewrite <- Hr.
    match goal with
    | |- context [errgroup_drain ?m sched ?e w] =>
        destruct (errgroup_drain m sched e w) as [[[eg1 done] | p] w2] eqn:Hdr;
        [| discriminate]
    end.
    destruct (errgroup_drain _ sched eg' w') as [[[eg1' done'] | p] w2'] eqn:Hdr';
      [| discriminate].
    intros [= <- <- <-] [= <- <- <-].
    destruct (errgroup_drain_similar _ _ _ _ _ _ _ _ _ _ _ _ Hs Hrun Hcr HR Hdr Hdr')
      as (Hs1 & Hrun1 & Hc1 & Hd1 & HR1).
    subst done'. pose proof Hs1 as (_ & _ & He1 & Hc1').
    rewrite !finished_app, !waited_app, !finished_allocated, !waited_allocated,
      !finished_map_Finished, !waited_map_Finished, He1.
    unfold Group_similar, subtasks. cbn [g].
    split; [exists eg1'; auto |]. split; [exact Hrun1 |].
    split; [exact Hc1 |]. split; [reflexivity |]. split; [reflexivity |].
    unfold call_cancel. rewrite Hc1'.
    destruct (cancel eg1') as [c |] eqn:Hc''; [| exact HR1].
    apply (Hcr c); [congruence | exact HR1].
Qed.

(** What cannot tell the worlds apart cannot tell the Groups apart. *)
Lemma run_similar (ops : list op) :
  forall (gr gr' gr1 gr1' : Group) (evs evs' : list event) (w w' w1 w1' : world),
    Group_similar gr gr' ->
    Forall (respects R) (subtasks gr) ->
    (forall c : world -> world,
        Group_cancel gr' = Some c -> forall a b : world, R a b -> R a (c b)) ->
    Forall (respects R) (functions ops) ->
    R w w' ->
    run ops gr w = (Returns (gr1, evs), w1) ->
    run ops gr' w' = (Returns (gr1', evs'), w1') ->
    Group_similar gr1 gr1' /\ Forall (respects R) (subtasks gr1) /\
    Group_cancel gr1' = Group_cancel gr' /\
    finished evs = finished evs' /\ waited evs = waited evs' /\ R w1 w1'.
Proof.
  induction ops as [| o ops IH];
    intros gr gr' gr1 gr1' evs evs' w w' w1 w1' Hs Hrun Hcr Hfn HR; cbn [run].
  - intros [= <- <- <-] [= <- <- <-]. auto 10.
  - change (o :: ops) with ([o] ++ ops) in Hfn.
    rewrite functions_app in Hfn. apply Forall_app in Hfn.
    destruct Hfn as (Hfo & Hfops).
    destruct (step o gr w) as [[[gr2 evs2] | p] w2] eqn:Hst; [| discriminate].
    destruct (step o gr' w') as [[[gr2' evs2'] | p] w2'] eqn:Hst'; [| discriminate].
    destruct (step_similar _ _ _ _ _ _ _ _ _ _ _ Hs Hrun Hcr Hfo HR Hst Hst')
      as (Hs2 & Hrun2 & Hc2 & Hf2 & Hw2 & HR2).
    destruct (run ops gr2 w2) as [[[gr3 evs3] | p] w3] eqn:Hr; [| discriminate].
    destruct (run ops gr2' w2') as [[[gr3' evs3'] | p] w3'] eqn:Hr'; [| discriminate].
    intros [= <- <- <-] [= <- <- <-].
    rewrite <- Hc2 in Hcr.
    destruct (IH _ _ _ _ _ _ _ _ _ _ Hs2 Hrun2 Hcr Hfops HR2 Hr Hr')
      as (Hs3 & Hrun3 & Hc3 & Hf3 & Hw3 & HR3).
    rewrite !finished_app, !waited_app.
    split; [exact Hs3 |]. split; [exact Hrun3 |]. split; [congruence |].
    split; [congruence |]. split; [congruence | exact HR3].
Qed.

End Simulation.

(** [GroupWithContext] returns a Group before its first use, around the
    cancel function of the derived context. *)
Lemma GroupWithContext_fresh (ctx : Context) (w : world) :
  GroupWithContext ctx w
  = let '((ctx1, c), w1) := context_WithCancel ctx w in
    ((fresh_Group (Some c), ctx1), w1).
Proof.
  unfold GroupWithContext, errgroup_WithContext.
  destruct (context_WithCancel ctx w) as [[ctx1 c] w1]. reflexivity.
Qed.

(** A run followed by [Wait]: what both return, and what they keep. *)
Lemma run_then_Wait (c : option (world -> world)) (ops : list op)
  (sched : list nat) (w : world) :
  exists (gr : Group) (evs : list event) (w1 : world)
         (gr2 : Group) (done : list error) (w2 : world),
    run ops (fresh_Group c) w = (Returns (gr, evs), w1) /\
    Group_Wait sched gr w1
    = (Returns (first_error (finished evs ++ done), gr2, done), w2) /\
    subtasks gr2 = [] /\
    g gr2 <> None /\
    length (finished evs ++ done) = launched ops /\
    forall I : world -> Prop,
      Forall (preserves I) (functions ops) ->
      cancel_preserves I c ->
      I w -> I w2.
Proof.
  destruct (run_tracks ops [] 0 (fresh_Group c) w (fresh_Group_tracks c))
    as (gr & evs & w1 & Hrun & Ht).
  destruct (Group_Wait_tracks sched _ _ gr w1 Ht)
    as (gr2 & done & w2 & HW & Ht2 & Hg2 & _ & Hsub).
  exists gr, evs, w1, gr2, done, w2. cbn [app] in *.
  split; [exact Hrun |]. split; [exact HW |]. split; [exact Hsub |].
  split; [exact Hg2 |]. split.
  - unfold Group_tracks in Ht2. destruct (g gr2) as [eg2 |] eqn:Hg; [| congruence].
    destruct Ht2 as (_ & _ & _ & Hlen).
    unfold subtasks in Hsub. rewrite Hg in Hsub. rewrite Hsub in Hlen.
    cbn in Hlen. lia.
  - intros I Hfn Hc Hw.
    destruct (run_preserves I ops _ _ _ _ _ Hfn (fresh_Group_preserves I c Hc) Hw Hrun)
      as (Hgr & Hw1).
    assert (Hstep : step (OpWait sched) gr w1
                    = (Returns (gr2, allocated gr gr2 ++ map Finished done
                                     ++ [Waited (first_error (finished evs ++ done))]),
                       w2))
      by (cbn [step]; now rewrite HW).
    exact (proj2 (step_preserves I (OpWait sched) gr gr2 _ w1 w2
                    (Forall_nil _) Hgr Hw1 Hstep)).
Qed.

(** *** A Group against the spec *)

Lemma has_failure_cons (e : error) (es : list error) :
  has_failure (e :: es) = negb (is_nil e) || has_failure es.
Proof.
  unfold has_failure. cbn [first_error].
  destruct (is_nil e) eqn:He; cbn; [reflexivity | now rewrite He].
Qed.

Lemma has_failure_app (a b : list error) :
  has_failure (a ++ b) = has_failure a || has_failure b.
Proof.
  induction a as [| e a IH]; [reflexivity |].
  cbn [app]. rewrite !has_failure_cons, IH. apply orb_assoc.
Qed.

Lemma ran_app (a b : list move) : ran (a ++ b) = ran a ++ ran b.
Proof. induction a as [| [fn |] a IH]; cbn; congruence. Qed.

Lemma wait_returns_app (a b : list move) :
  wait_returns (a ++ b) = wait_returns a + wait_returns b.
Proof. induction a as [| [fn |] a IH]; cbn; congruence. Qed.

Lemma replay_app (c : option (world -> world)) (a b : list move) :
  forall (failed : bool) (w : world),
    spec_replay c (a ++ b) failed w =
    let '(ea, wa) := spec_replay c a failed w in
    let '(eb, wb) := spec_replay c b (failed || has_failure ea) wa in
    (ea ++ eb, wb).
Proof.
  induction a as [| [fn |] a IH]; intros failed w; cbn [app spec_replay].
  - cbn. rewrite orb_false_r. now destruct (spec_replay c b failed w).
  - destruct (Do fn w) as [o w1].
    set (e := match o with Returns e0 => e0 | Panics _ => NilIface end).
    rewrite IH.
    destruct (spec_replay c a (failed || negb (is_nil e)) _) as [ea wa].
    rewrite has_failure_cons, orb_assoc.
    now destruct (spec_replay c b _ wa).
  - apply IH.
Qed.

Lemma remove_nth_Permutation (A : Type) (l : list A) (k : nat) (x : A) :
  nth_error l k = Some x ->
  Permutation (x :: firstn k l ++ skipn (S k) l) l.
Proof.
  intros H. pose proof (firstn_skipn_middle k l H) as E.
  eapply Permutation_trans; [apply Permutation_middle |].
  rewrite E. apply Permutation_refl.
Qed.

Lemma errgroup_finish_replay (k : nat) (eg eg1 : errgroup_Group)
  (done : list error) (w w1 : world) (pend : list (M error)) :
  running eg = map Do pend ->
  errgroup_finish k eg w = (Returns (eg1, done), w1) ->
  exists (ms : list move) (pend' : list (M error)),
    running eg1 = map Do pend' /\
    Permutation (ran ms ++ pend') pend /\
    wait_returns ms = 0 /\
    spec_replay (cancel eg) ms (errOnce eg) w = (done, w1) /\
    errOnce eg1 = errOnce eg || has_failure done /\
    cancel eg1 = cancel eg.
Proof.
  intros Hr. unfold errgroup_finish. rewrite Hr, nth_error_map.
  destruct (nth_error pend k) as [fn |] eqn:Hk; cbn [option_map].
  - destruct (Do fn w) as [[e | p] w2] eqn:HDo; [| discriminate].
    assert (Hrest : firstn k (map Do pend) ++ skipn (S k) (map Do pend)
                    = map Do (firstn k pend ++ skipn (S k) pend))
      by (now rewrite firstn_map, skipn_map, map_app).
    assert (Hperm : Permutation
                      (ran [Ran fn] ++ firstn k pend ++ skipn (S k) pend) pend)
      by (apply remove_nth_Permutation; exact Hk).
    rewrite Hrest.
    destruct (is_nil e) eqn:He; cbn [negb]; [| destruct (errOnce eg) eqn:Ho];
      intros [= <- <- <-];
      exists [Ran fn], (firstn k pend ++ skipn (S k) pend);
      cbn [running cancel errOnce spec_replay]; rewrite HDo, ?Ho, He;
      unfold has_failure; cbn [first_error]; rewrite He;
      cbn [negb andb orb is_nil]; rewrite ?orb_false_r, ?He;
      cbn [negb andb orb];
      repeat split; try assumption; try reflexivity.
  - intros [= <- <- <-]. exists [], pend.
    cbn. rewrite orb_false_r. repeat split; auto.
Qed.

Lemma errgroup_drain_replay (m : nat) :
  forall (sched : list nat) (eg eg1 : errgroup_Group) (done : list error)
         (w w1 : world) (pend : list (M error)),
    running eg = map Do pend ->
    errgroup_drain m sched eg w = (Returns (eg1, done), w1) ->
    exists (ms : list move) (pend' : list (M error)),
      running eg1 = map Do pend' /\
      Permutation (ran ms ++ pend') pend /\
      wait_returns ms = 0 /\
      spec_replay (cancel eg) ms (errOnce eg) w = (done, w1) /\
      errOnce eg1 = errOnce eg || has_failure done /\
      cancel eg1 = cancel eg.
Proof.
  induction m as [| m IH]; intros sched eg eg1 done w w1 pend Hr;
    cbn [errgroup_drain].
  - intros [= <- <- <-]. exists [], pend.
    cbn. rewrite orb_false_r. repeat split; auto.
  - destruct (errgroup_finish _ eg w) as [[[eg2 done2] | p] w2] eqn:Hfin;
      [| discriminate].
    destruct (errgroup_drain m (tl sched) eg2 w2) as [[[eg3 done3] | p] w3] eqn:Hdr;
      [| discriminate].
    intros [= <- <- <-].
    destruct (errgroup_finish_replay _ _ _ _ _ _ _ Hr Hfin)
      as (ms2 & pend2 & Hr2 & Hp2 & Hw2 & Hre2 & Ho2 & Hc2).
    destruct (IH _ _ _ _ _ _ _ Hr2 Hdr)
      as (ms3 & pend3 & Hr3 & Hp3 & Hw3 & Hre3 & Ho3 & Hc3).
    exists (ms2 ++ ms3), pend3.
    split; [exact Hr3 |]. split.
    { rewrite ran_app, <- app_assoc.
      eapply Permutation_trans; [apply Permutation_app_head; exact Hp3 |].
      exact Hp2. }
    split; [rewrite wait_returns_app; lia |]. split.
    { rewrite replay_app, Hre2. rewrite <- Ho2, <- Hc2, Hre3. reflexivity. }
    split; [| congruence].
    rewrite Ho3, Ho2, has_failure_app. symmetry. apply orb_assoc.
Qed.

Lemma agrees_init (c : option (world -> world)) (pend : list (M error))
  (failed : bool) (gr : Group) (eg : errgroup_Group) :
  agrees c pend failed gr ->
  g (init gr) = Some eg ->
  running eg = map Do pend /\ errOnce eg = failed /\ cancel eg = c.
Proof.
  unfold agrees. intros H Hi. apply init_tracker in Hi. subst eg.
  destruct (g gr) as [eg |]; [exact H |].
  destruct H as (-> & -> & ->). repeat split.
Qed.

Lemma step_replay (o : op) (c : option (world -> world))
  (pend : list (M error)) (failed : bool) (gr gr1 : Group)
  (evs : list event) (w w1 : world) :
  agrees c pend failed gr ->
  step o gr w = (Returns (gr1, evs), w1) ->
  exists (ms : list move) (pend' : list (M error)),
    agrees c pend' (failed || has_failure (finished evs)) gr1 /\
    Permutation (ran ms ++ pend') (pend ++ functions [o]) /\
    wait_returns ms = waits [o] /\
    spec_replay c ms failed w = (finished evs, w1).
Proof.
  intros Hag. destruct o as [fn | k | sched]; cbn [step functions waits].
  - unfold Group_Go. destruct (g (init gr)) as [eg |] eqn:Hi; [| discriminate].
    destruct (agrees_init _ _ _ _ _ Hag Hi) as (Hr & Ho & Hc).
    intros [= <- <- <-]. exists [], (pend ++ [fn]).
    rewrite finished_allocated. cbn [has_failure first_error is_nil negb].
    rewrite orb_false_r. unfold agrees. cbn [g errgroup_Go running errOnce cancel].
    rewrite Hr, map_app. repeat split; auto.
  - unfold agrees in Hag. destruct (g gr) as [eg |] eqn:Hg.
    + destruct Hag as (Hr & Ho & Hc).
      destruct (errgroup_finish k eg w) as [[[eg1 done] | p] w2] eqn:Hfin;
        [| discriminate].
      intros [= <- <- <-].
      destruct (errgroup_finish_replay _ _ _ _ _ _ _ Hr Hfin)
        as (ms & pend' & Hr1 & Hp1 & Hw1 & Hre1 & Ho1 & Hc1).
      exists ms, pend'. rewrite finished_map_Finished, app_nil_r.
      unfold agrees. cbn [g]. rewrite <- Ho, <- Hc.
      repeat split; auto; congruence.
    + intros [= <- <- <-]. exists [], pend.
      cbn [finished has_failure first_error is_nil negb].
      rewrite orb_false_r, app_nil_r. unfold agrees. rewrite Hg.
      destruct Hag as (Hp & Hf & Hc). repeat split; auto.
  - unfold Group_Wait, errgroup_Wait.
    destruct (g (init gr)) as [eg |] eqn:Hi; [| discriminate].
    destruct (agrees_init _ _ _ _ _ Hag Hi) as (Hr & Ho & Hc).
    destruct (errgroup_drain _ sched eg w) as [[[eg1 done] | p] w2] eqn:Hdr;
      [| discriminate].
    intros [= <- <- <-].
    destruct (errgroup_drain_replay _ _ _ _ _ _ _ _ Hr Hdr)
      as (ms & pend' & Hr1 & Hp1 & Hw1 & Hre1 & Ho1 & Hc1).
    exists (ms ++ [WaitReturned]), pend'.
    rewrite !finished_app, finished_allocated, finished_map_Finished.
    cbn [finished app]. rewrite !app_nil_r.
    unfold agrees. cbn [g]. rewrite <- Ho, <- Hc.
    split; [repeat split; auto; congruence |].
    split; [rewrite ran_app; cbn [ran]; rewrite app_nil_r; exact Hp1 |].
    split; [rewrite wait_returns_app, Hw1; reflexivity |].
    rewrite replay_app, Hre1. cbn [spec_replay]. rewrite app_nil_r.
    unfold call_cancel, cancel_opt. now rewrite Hc1.
Qed.

(** The errors of the subtasks and the world, after any calls and ends of
    subtasks, are those of the spec for some order of the moves. *)
Lemma run_replay (ops : list op) :
  forall (c : option (world -> world)) (pend : list (M error)) (failed : bool)
         (gr gr1 : Group) (evs : list event) (w w1 : world),
    agrees c pend failed gr ->
    run ops gr w = (Returns (gr1, evs), w1) ->
    exists (ms : list move) (pend' : list (M error)),
      agrees c pend' (failed || has_failure (finished evs)) gr1 /\
      Permutation (ran ms ++ pend') (pend ++ functions ops) /\
      wait_returns ms = waits ops /\
      spec_replay c ms failed w = (finished evs, w1).
Proof.
  induction ops as [| o ops IH]; intros c pend failed gr gr1 evs w w1 Hag;
    cbn [run].
  - intros [= <- <- <-]. exists [], pend.
    cbn. rewrite orb_false_r, app_nil_r. repeat split; auto.
  - destruct (step o gr w) as [[[gr2 evs2] | p] w2] eqn:Hs; [| discriminate].
    destruct (run ops gr2 w2) as [[[gr3 evs3] | p] w3] eqn:Hr; [| discriminate].
    intros [= <- <- <-].
    destruct (step_replay _ _ _ _ _ _ _ _ _ Hag Hs)
      as (ms2 & pend2 & Hag2 & Hp2 & Hw2 & Hre2).
    destruct (IH _ _ _ _ _ _ _ _ Hag2 Hr)
      as (ms3 & pend3 & Hag3 & Hp3 & Hw3 & Hre3).
    exists (ms2 ++ ms3), pend3.
    rewrite finished_app, has_failure_app, orb_assoc.
    split; [exact Hag3 |]. split.
    { change (o :: ops) with ([o] ++ ops).
      rewrite functions_app, ran_app, <- app_assoc, (app_assoc pend).
      eapply Permutation_trans; [apply Permutation_app_head; exact Hp3 |].
      rewrite app_assoc. apply Permutation_app_tail. exact Hp2. }
    split.
    { rewrite wait_returns_app, Hw2, Hw3. destruct o; reflexivity. }
    rewrite replay_app, Hre2, Hre3. reflexivity.
Qed.

(** A run from a Group with nothing running, followed by [Wait]. *)
Lemma run_then_Wait_replay (c : option (world -> world)) (gr0 : Group)
  (ops : list op) (sched : list nat) (w : world) :
  Group_tracks [] 0 gr0 ->
  agrees c [] false gr0 ->
  exists (gr : Group) (evs : list event) (w1 : world)
         (gr2 : Group) (done : list error) (w2 : world) (ms : list move),
    run ops gr0 w = (Returns (gr, evs), w1) /\
    Group_Wait sched gr w1
    = (Returns (first_error (finished evs ++ done), gr2, done), w2) /\
    subtasks gr2 = [] /\
    g gr2 <> None /\
    length (finished evs ++ done) = launched ops /\
    Permutation (ran ms) (functions ops) /\
    wait_returns ms = S (waits ops) /\
    spec_replay c ms false w = (finished evs ++ done, w2) /\
    forall I : world -> Prop,
      Forall (preserves I) (functions ops) ->
      Group_preserves I gr0 ->
      I w -> I w2.
Proof.
  intros Ht0 Hag0.
  destruct (run_tracks ops [] 0 gr0 w Ht0) as (gr & evs & w1 & Hrun & Ht).
  destruct (Group_Wait_tracks sched _ _ gr w1 Ht)
    as (gr2 & done & w2 & HW & Ht2 & Hg2 & _ & Hsub).
  cbn [app] in *.
  assert (Hstep : step (OpWait sched) gr w1
                  = (Returns (gr2, allocated gr gr2 ++ map Finished done
                                   ++ [Waited (first_error (finished evs ++ done))]),
                     w2))
    by (cbn [step]; now rewrite HW).
  destruct (run_replay ops _ _ _ _ _ _ _ _ Hag0 Hrun)
    as (ms1 & pend1 & Hag1 & Hp1 & Hw1 & Hre1).
  destruct (step_replay _ _ _ _ _ _ _ _ _ Hag1 Hstep)
    as (ms2 & pend2 & Hag2 & Hp2 & Hw2 & Hre2).
  rewrite !finished_app, finished_allocated, finished_map_Finished in Hre2.
  cbn [finished app] in Hre2. rewrite app_nil_r in Hre2.
  assert (Hpend2 : pend2 = []).
  { unfold agrees in Hag2. unfold subtasks in Hsub.
    destruct (g gr2) as [eg2 |]; [| congruence].
    destruct Hag2 as (Hr2 & _). rewrite Hsub in Hr2.
    symmetry in Hr2. now apply map_eq_nil in Hr2. }
  subst pend2. cbn [functions] in Hp2. rewrite !app_nil_r in Hp2.
  exists gr, evs, w1, gr2, done, w2, (ms1 ++ ms2).
  split; [exact Hrun |]. split; [exact HW |]. split; [exact Hsub |].
  split; [exact Hg2 |]. split.
  { unfold Group_tracks in Ht2. destruct (g gr2) as [eg2 |] eqn:Hg; [| congruence].
    destruct Ht2 as (_ & _ & _ & Hlen).
    unfold subtasks in Hsub. rewrite Hg in Hsub. rewrite Hsub in Hlen.
    cbn in Hlen. lia. }
  split.
  { rewrite ran_app. cbn [app] in Hp1.
    eapply Permutation_trans; [apply Permutation_app_head; exact Hp2 |].
    exact Hp1. }
  split; [rewrite wait_returns_app, Hw1, Hw2; cbn; lia |]. split.
  { rewrite replay_app, Hre1. cbn [orb] in Hre2 |- *. rewrite Hre2. reflexivity. }
  intros I Hfn Hgr0 Hw.
  destruct (run_preserves I ops _ _ _ _ _ Hfn Hgr0 Hw Hrun) as (Hgr & HIw1).
  exact (proj2 (step_preserves I (OpWait sched) gr gr2 _ w1 w2
                  (Forall_nil _) Hgr HIw1 Hstep)).
Qed.

Lemma agrees_fresh (c : option (world -> world)) :
  agrees c [] false (fresh_Group c).
Proof. destruct c; cbn; repeat split. Qed.

(** C5: after any run of a program on a Group, zero or built by
    [GroupWithContext], [Wait] returns.  By then no subtask is left running,
    and the functions given to [Go] have all run, each once and guarded by
    [Do], in some order [ms]: the errors of the subtasks and the world at
    the return of [Wait] are those that the spec gives for that order, on
    the functions themselves.  The error returned is the first non-nil
    error in that order, nil when there is none.  The later errors are
    returned nowhere, and nothing is written for them: a property of the
    world that the functions given to [Go] and the cancel function keep,
    such as the content of the log, still holds when [Wait] returns. *)
Theorem Group_Wait_first_error (c : option (world -> world)) (ops : list op)
  (sched : list nat) (w : world) :
  exists (gr : Group) (evs : list event) (w1 : world)
         (gr2 : Group) (done : list error) (w2 : world) (ms : list move),
    run ops (fresh_Group c) w = (Returns (gr, evs), w1) /\
    Group_Wait sched gr w1
    = (Returns (first_error (finished evs ++ done), gr2, done), w2) /\
    subtasks gr2 = [] /\
    length (finished evs ++ done) = launched ops /\
    Permutation (ran ms) (functions ops) /\
    wait_returns ms = S (waits ops) /\
    spec_replay c ms false w = (finished evs ++ done, w2) /\
    forall I : world -> Prop,
      Forall (preserves I) (functions ops) ->
      cancel_preserves I c ->
      I w -> I w2.
Proof.
  destruct (run_then_Wait_replay c (fresh_Group c) ops sched w
              (fresh_Group_tracks c) (agrees_fresh c))
    as (gr & evs & w1 & gr2 & done & w2 & ms
        & H1 & H2 & H3 & _ & H4 & H5 & H6 & H7 & H8).
  exists gr, evs, w1, gr2, done, w2, ms.
  split; [exact H1 |]. split; [exact H2 |]. split; [exact H3 |].
  split; [exact H4 |]. split; [exact H5 |]. split; [exact H6 |].
  split; [exact H7 |].
  intros I Hfn Hc Hw. apply (H8 I Hfn); [| exact Hw].
  apply fresh_Group_preserves. exact Hc.
Qed.

(** C4, as amended: no run of a program on a Group, and no [Wait], ends in a
    panic.  When a subtask whose function panics with a payload [p] that is
    not nil finishes before any subtask has failed, every later [Wait]
    returns a [PanicError] whose [Panic()] is [p] and which carries the
    stack captured in [Do]. *)
Theorem Group_panic_is_error (c : option (world -> world)) :
  (forall (ops : list op) (sched : list nat) (w : world),
      exists (gr : Group) (evs : list event) (w1 : world)
             (e : error) (gr2 : Group) (done : list error) (w2 : world),
        run ops (fresh_Group c) w = (Returns (gr, evs), w1) /\
        Group_Wait sched gr w1 = (Returns (e, gr2, done), w2)) /\
  (forall (ops1 ops2 : list op) (sched : list nat) (w w1 w2 : world)
          (gr : Group) (evs1 : list event) (k : nat) (fn : M error) (p : iface),
      run ops1 (fresh_Group c) w = (Returns (gr, evs1), w1) ->
      first_error (finished evs1) = NilIface ->
      nth_error (subtasks gr) k = Some (Do fn) ->
      fn w1 = (Panics p, w2) ->
      p <> NilIface ->
      exists (pe : PanicError) (gr3 : Group) (evs3 : list event) (w3 : world)
             (gr4 : Group) (done : list error) (w4 : world),
        run (OpFinish k :: ops2) gr w1 = (Returns (gr3, evs3), w3) /\
        Group_Wait sched gr3 w3 = (Returns (OfPanicError pe, gr4, done), w4) /\
        Panic pe = p /\
        PanicError_StackTrace pe = runtime_Callers in_Do).
Proof.
  split.
  - intros ops sched w.
    destruct (run_then_Wait c ops sched w)
      as (gr & evs & w1 & gr2 & done & w2 & H1 & H2 & _).
    eauto 10.
  - intros ops1 ops2 sched w w1 w2 gr evs1 k fn p Hrun1 Hnone Hk Hfn Hp.
    destruct (run_tracks ops1 [] 0 (fresh_Group c) w (fresh_Group_tracks c))
      as (gr0 & evs0 & w0' & Hrun0 & Ht).
    rewrite Hrun1 in Hrun0. injection Hrun0 as <- <- <-.
    cbn [app] in Ht. unfold Group_tracks in Ht. unfold subtasks in Hk.
    destruct (g gr) as [eg |] eqn:Hg; [| destruct k; discriminate Hk].
    destruct (errgroup_finish_tracks _ _ k eg w1 Ht)
      as (eg1 & done1 & w1' & Hfin & Ht1 & _).
    assert (Hnil : is_nil p = false) by (destruct p; simpl; congruence).
    assert (Hdone : done1 = [panicError in_Do p]).
    { destruct Ht as (_ & _ & Honce & _). rewrite Hnone in Honce. cbn in Honce.
      unfold errgroup_finish in Hfin. rewrite Hk, Do_eq, Hfn in Hfin.
      rewrite (recovered_not_nil p Hnil), Hnil, Honce in Hfin.
      cbn in Hfin. now injection Hfin as <- <- <-. }
    subst done1.
    set (gr3 := {| g := Some eg1; once := once gr |}).
    assert (Ht3 : Group_tracks (finished evs1 ++ [panicError in_Do p])
                    (launched ops1) gr3) by exact Ht1.
    destruct (run_tracks ops2 _ _ gr3 w1' Ht3) as (gr4 & evs4 & w4 & Hrun4 & Ht4).
    destruct (Group_Wait_tracks sched _ _ gr4 w4 Ht4)
      as (gr5 & done5 & w5 & HW & _).
    assert (Hfirst : first_error
                       ((finished evs1 ++ [panicError in_Do p]) ++ finished evs4)
                     = panicError in_Do p).
    { rewrite first_error_stable; rewrite (first_error_app (finished evs1)), Hnone;
        reflexivity. }
    rewrite first_error_stable in HW by (now rewrite Hfirst).
    rewrite Hfirst in HW.
    eexists _, gr4, _, w4, gr5, done5, w5.
    split; [cbn [run step]; rewrite Hg, Hfin; fold gr3; rewrite Hrun4; reflexivity |].
    split; [exact HW |]. split; reflexivity.
Qed.

(** *** Calls that overlap *)

Lemma Group_Go_split (fn : M error) (gr : Group) :
  Group_Go fn gr = Group_Go_rest fn (init gr).
Proof. reflexivity. Qed.

Lemma Group_Wait_split (sched : list nat) (gr : Group) (w : world) :
  Group_Wait sched gr w = Group_Wait_rest sched (init gr) w.
Proof. reflexivity. Qed.

Lemma init_traced_done (gr : Group) : once gr = true -> init_traced gr = (gr, 0).
Proof. unfold init_traced. now intros ->. Qed.

Lemma init_done (gr : Group) : once gr = true -> init gr = gr.
Proof. intros H. unfold init. now rewrite init_traced_done. Qed.

Lemma allocated_same (gr : Group) : allocated gr gr = [].
Proof. unfold allocated. now destruct (g gr). Qed.

Lemma step_once (o : op) (gr gr1 : Group) (evs : list event) (w w1 : world) :
  once gr = true ->
  step o gr w = (Returns (gr1, evs), w1) ->
  once gr1 = true.
Proof.
  intros Ho. destruct o as [fn | k | sched]; cbn [step].
  - rewrite Group_Go_split, (init_done gr Ho). unfold Group_Go_rest.
    destruct (g gr); [| discriminate]. now intros [= <- <- <-].
  - destruct (g gr) as [eg |]; [| now intros [= <- <- <-]].
    destruct (errgroup_finish k eg w) as [[[eg1 done] | p] w2]; [| discriminate].
    now intros [= <- <- <-].
  - rewrite Group_Wait_split, (init_done gr Ho). unfold Group_Wait_rest.
    destruct (g gr) as [eg |]; [| discriminate].
    destruct (errgroup_Wait sched eg w) as [[[[e eg1] done] | p] w2];
      [| discriminate].
    now intros [= <- <- <-].
Qed.

Lemma run_once (ops : list op) :
  forall (gr gr1 : Group) (evs : list event) (w w1 : world),
    once gr = true ->
    run ops gr w = (Returns (gr1, evs), w1) ->
    once gr1 = true.
Proof.
  induction ops as [| o ops IH]; intros gr gr1 evs w w1 Ho; cbn [run].
  - now intros [= <- <- <-].
  - destruct (step o gr w) as [[[gr2 evs2] | p] w2] eqn:Hs; [| discriminate].
    destruct (run ops gr2 w2) as [[[gr3 evs3] | p] w3] eqn:Hr; [| discriminate].
    intros [= <- <- <-]. eapply IH; [| exact Hr]. eapply step_once; eauto.
Qed.

(** Once [g.init()] has run, the steps [g.init()] of later calls change
    nothing, and calls that overlap do what the same calls do one after
    the other. *)
Lemma run_actions_once (acts : list action) :
  forall (gr : Group) (w : world),
    once gr = true ->
    run_actions acts gr w =
    match run (ops_of acts) gr w with
    | (Returns (gr1, evs), w1) => (Returns (gr1, evs, 0), w1)
    | (Panics p, w1) => (Panics p, w1)
    end.
Proof.
  induction acts as [| a acts IH]; intros gr w Ho; [reflexivity |].
  cbn [run_actions]. destruct a as [| fn | k | sched]; cbn [act ops_of run].
  - rewrite (init_traced_done gr Ho), (init_done gr Ho), allocated_same.
    cbn [snd]. rewrite (IH gr w Ho).
    now destruct (run (ops_of acts) gr w) as [[[gr1 evs] | p] w1].
  - cbn [step]. rewrite Group_Go_split, (init_done gr Ho).
    unfold Group_Go_rest. destruct (g gr) as [eg |] eqn:Hg; [| reflexivity].
    rewrite IH by exact Ho. unfold allocated. cbn [g]. rewrite Hg.
    now destruct (run (ops_of acts) _ w) as [[[gr1 evs] | p] w1].
  - destruct (step (OpFinish k) gr w) as [[[gr1 evs1] | p] w1] eqn:Hs;
      [| reflexivity].
    rewrite IH by (eapply step_once; eauto).
    now destruct (run (ops_of acts) gr1 w1) as [[[gr2 evs2] | p] w2].
  - cbn [step]. rewrite Group_Wait_split, (init_done gr Ho).
    unfold Group_Wait_rest. destruct (g gr) as [eg |] eqn:Hg; [| reflexivity].
    destruct (errgroup_Wait sched eg w) as [[[[e eg1] done] | p] w1];
      [| reflexivity].
    rewrite IH by exact Ho. unfold allocated. cbn [g]. rewrite Hg.
    now destruct (run (ops_of acts) _ w1) as [[[gr2 evs2] | p] w2].
Qed.

Lemma step_Finish_idle (k : nat) (w : world) :
  step (OpFinish k) zero_Group w = (Returns (zero_Group, []), w) /\
  step (OpFinish k) (init zero_Group) w = (Returns (init zero_Group, []), w).
Proof. split; [reflexivity |]. destruct k; reflexivity. Qed.

(** Calls that overlap on a zero Group: the first [g.init()] allocates the
    tracker and is the only one to run the function given to [g.once.Do]. *)
Lemma run_actions_zero (acts : list action) (w : world) :
  in_order 0 acts = true ->
  run_actions acts zero_Group w =
  match run (ops_of acts)
          (if Nat.eqb (inits acts) 0 then zero_Group else init zero_Group) w with
  | (Returns (gr1, evs), w1) =>
      (Returns (gr1, (if Nat.eqb (inits acts) 0 then [] else [Allocated]) ++ evs,
                Nat.min 1 (inits acts)), w1)
  | (Panics p, w1) => (Panics p, w1)
  end.
Proof.
  induction acts as [| a acts IH]; [reflexivity |].
  destruct a as [| fn | k | sched]; cbn [in_order inits ops_of]; intros Hord;
    try discriminate.
  - cbn [run_actions act Nat.eqb].
    rewrite run_actions_once by reflexivity.
    now destruct (run (ops_of acts) (init zero_Group) w) as [[[gr1 evs] | p] w1].
  - cbn [run_actions act run].
    destruct (step_Finish_idle k w) as (Hz & Hi).
    rewrite Hz, (IH Hord).
    destruct (Nat.eqb (inits acts) 0); rewrite ?Hz, ?Hi;
      now destruct (run (ops_of acts) _ w) as [[[gr1 evs] | p] w1].
Qed.

Lemma in_order_no_inits (acts : list action) :
  in_order 0 acts = true -> inits acts = 0 -> calls (ops_of acts) = 0.
Proof.
  induction acts as [| [| fn | k | sched] acts IH]; cbn; auto; discriminate.
Qed.

Lemma run_no_calls (ops : list op) (w : world) :
  calls ops = 0 -> run ops zero_Group w = (Returns (zero_Group, []), w).
Proof.
  induction ops as [| [fn | k | sched] ops IH]; cbn [calls run];
    try discriminate; [reflexivity |].
  intros H. rewrite (proj1 (step_Finish_idle k w)), (IH H). reflexivity.
Qed.

(** C8: a zero Group can be used as it is.

    First part, calls of [Go] and [Wait] that overlap: each call is the
    step [g.init()] and the rest, and the steps of the calls come in any
    order in which every call does its [g.init()] first.  Nothing panics;
    over all the calls, and the [Wait] at the end, the function given to
    [g.once.Do] runs exactly once; the tracker never has a cancel function;
    when [Wait] returns no subtask is left, the functions given to [Go]
    have all run, each once and guarded, and the errors, the world and the
    error returned are those of the spec without a context.

    Second part, calls one after the other: the tracker is allocated once,
    a property of the world that the functions given to [Go] keep still
    holds at the end, and a Group born with a cancel function [c] does the
    same for the same schedule, as far as can be told by a program that
    does not observe [c], each of the two following the spec on the
    functions given to [Go]. *)
Theorem zero_Group_valid :
  (forall (acts : list action) (sched : list nat) (w : world),
      in_order 0 acts = true ->
      exists (gr : Group) (evs : list event) (n : nat) (w1 : world)
             (gr2 : Group) (done : list error) (w2 : world) (ms : list move),
        run_actions acts zero_Group w = (Returns (gr, evs, n), w1) /\
        n = Nat.min 1 (inits acts) /\
        Group_Wait sched gr w1
        = (Returns (first_error (finished evs ++ done), gr2, done), w2) /\
        n + snd (init_traced gr) = 1 /\
        subtasks gr2 = [] /\
        Group_cancel gr2 = None /\
        Permutation (ran ms) (functions (ops_of acts)) /\
        spec_replay None ms false w = (finished evs ++ done, w2)) /\
  (forall (ops : list op) (sched : list nat) (w : world),
      exists (gr : Group) (evs : list event) (w1 : world)
             (gr2 : Group) (done : list error) (w2 : world) (ms : list move),
        run ops zero_Group w = (Returns (gr, evs), w1) /\
        Group_Wait sched gr w1
        = (Returns (first_error (finished evs ++ done), gr2, done), w2) /\
        subtasks gr2 = [] /\
        length (finished evs ++ done) = launched ops /\
        allocations (evs ++ allocated gr gr2) = 1 /\
        Group_cancel gr2 = None /\
        Permutation (ran ms) (functions ops) /\
        spec_replay None ms false w = (finished evs ++ done, w2) /\
        (forall I : world -> Prop,
            Forall (preserves I) (functions ops) -> I w -> I w2) /\
        (forall (R : world -> world -> Prop) (c : world -> world) (w' : world),
            (forall a b : world, R a b -> R a (c b)) ->
            Forall (respects R) (functions ops) ->
            R w w' ->
            exists (gr' : Group) (evs' : list event) (w1' : world)
                   (gr2' : Group) (done' : list error) (w2' : world)
                   (ms' : list move),
              run ops (fresh_Group (Some c)) w' = (Returns (gr', evs'), w1') /\
              Group_Wait sched gr' w1'
              = (Returns (first_error (finished evs ++ done), gr2', done'), w2') /\
              finished evs' = finished evs /\
              waited evs' = waited evs /\
              done' = done /\
              Permutation (ran ms') (functions ops) /\
              spec_replay (Some c) ms' false w' = (finished evs ++ done, w2') /\
              R w2 w2')).
Proof.
  split.
  - intros acts sched w Hord.
    set (G := if Nat.eqb (inits acts) 0 then zero_Group else init zero_Group).
    assert (HG : Group_tracks [] 0 G /\ agrees None [] false G /\
                 Group_cancel G = None).
    { unfold G. destruct (Nat.eqb (inits acts) 0); cbn; repeat split; constructor. }
    destruct HG as (HGt & HGa & HGc).
    destruct (run_then_Wait_replay None G (ops_of acts) sched w HGt HGa)
      as (gr & evs & w1 & gr2 & done & w2 & ms
          & Hrun & HW & Hsub & _ & _ & Hperm & _ & Hre & _).
    assert (Hstep : step (OpWait sched) gr w1
                    = (Returns (gr2, allocated gr gr2 ++ map Finished done
                                     ++ [Waited (first_error (finished evs ++ done))]),
                       w2))
      by (cbn [step]; now rewrite HW).
    destruct (run_allocations _ _ _ _ _ _ Hrun) as (Hc & _).
    destruct (step_allocations _ _ _ _ _ _ Hstep) as (Hc2 & _).
    exists gr, ((if Nat.eqb (inits acts) 0 then [] else [Allocated]) ++ evs),
      (Nat.min 1 (inits acts)), w1, gr2, done, w2, ms.
    assert (Hfin : finished ((if Nat.eqb (inits acts) 0 then [] else [Allocated]) ++ evs)
                   = finished evs)
      by (destruct (Nat.eqb (inits acts) 0); reflexivity).
    rewrite Hfin.
    split; [rewrite (run_actions_zero acts w Hord); fold G; now rewrite Hrun |].
    split; [reflexivity |]. split; [exact HW |]. split.
    { unfold G in Hrun. destruct (inits acts) as [| n] eqn:Hn; cbn [Nat.eqb] in Hrun.
      - rewrite (run_no_calls _ w (in_order_no_inits acts Hord Hn)) in Hrun.
        now injection Hrun as <- <- <-.
      - rewrite (init_traced_done gr); [reflexivity |].
        eapply run_once; [| exact Hrun]. reflexivity. }
    split; [exact Hsub |]. split; [congruence |].
    split; [exact Hperm | exact Hre].
  - intros ops sched w.
    destruct (run_then_Wait_replay None zero_Group ops sched w
                (fresh_Group_tracks None) (agrees_fresh None))
      as (gr & evs & w1 & gr2 & done & w2 & ms
          & Hrun & HW & Hsub & Hg2 & Hlen & Hperm & _ & Hre & Hframe).
    exists gr, evs, w1, gr2, done, w2, ms.
    assert (Hstep : step (OpWait sched) gr w1
                    = (Returns (gr2, allocated gr gr2 ++ map Finished done
                                     ++ [Waited (first_error (finished evs ++ done))]),
                       w2))
      by (cbn [step]; now rewrite HW).
    destruct (run_allocations ops _ _ _ _ _ Hrun) as (Hc & Ha & Hg).
    destruct (step_allocations _ _ _ _ _ _ Hstep) as (Hc2 & Ha2 & _).
    split; [exact Hrun |]. split; [exact HW |]. split; [exact Hsub |].
    split; [exact Hlen |]. split; [| split; [| split; [| split; [| split]]]].
    + rewrite !allocations_app, allocations_map_Finished in Ha2. cbn in Ha2.
      rewrite allocations_app, Ha. cbn [zero_Group g] in Hg |- *.
      destruct (g gr) as [eg |].
      * destruct Hg as [Hg | Hg]; [congruence | lia].
      * destruct Hg as (_ & ->). cbn in *. lia.
    + rewrite Hc2, Hc. reflexivity.
    + exact Hperm.
    + exact Hre.
    + intros I Hfn Hw. apply (Hframe I); auto. exact Logic.I.
    + intros R c w' Hcr Hfn HR.
      destruct (run_then_Wait_replay (Some c) (fresh_Group (Some c)) ops sched w'
                  (fresh_Group_tracks (Some c)) (agrees_fresh (Some c)))
        as (gr' & evs' & w1' & gr2' & done' & w2' & ms'
            & Hrun' & HW' & _ & _ & _ & Hperm' & _ & Hre' & _).
      assert (Hstep' : step (OpWait sched) gr' w1'
                       = (Returns (gr2', allocated gr' gr2' ++ map Finished done'
                                         ++ [Waited (first_error (finished evs' ++ done'))]),
                          w2'))
        by (cbn [step]; now rewrite HW').
      assert (Hsim : Group_similar zero_Group (fresh_Group (Some c))).
      { eexists. split; [reflexivity |]. repeat split. }
      assert (Hcr0 : forall c0 : world -> world,
                 Group_cancel (fresh_Group (Some c)) = Some c0 ->
                 forall a b : world, R a b -> R a (c0 b)).
      { cbn. intros c0 [= <-]. exact Hcr. }
      destruct (run_similar R ops _ _ _ _ _ _ _ _ _ _ Hsim (Forall_nil _) Hcr0 Hfn HR
                  Hrun Hrun')
        as (Hs1 & Hrun1 & Hc1 & Hf1 & Hw1 & HR1).
      rewrite <- Hc1 in Hcr0.
      destruct (step_similar R (OpWait sched) _ _ _ _ _ _ _ _ _ _ Hs1 Hrun1 Hcr0
                  (Forall_nil _) HR1 Hstep Hstep')
        as (_ & _ & _ & Hf2 & Hw2 & HR2).
      rewrite !finished_app, !finished_allocated, !finished_map_Finished in Hf2.
      cbn in Hf2. rewrite !app_nil_r in Hf2. subst done'.
      exists gr', evs', w1', gr2', done, w2', ms'.
      rewrite <- Hf1 in HW', Hre'.
      split; [exact Hrun' |]. split; [exact HW' |]. auto 10.
Qed.

(** * Further properties of the package *)

(** ** Do and DoWithResult *)

(** X1: no panic of [fn] leaves [Do]: when the call of [fn] ends, by a
    return or by a panic, [Do] returns an error, and the world after it is
    the one [fn] left. *)
Theorem Do_always_returns (fn : M error) (w : world) :
  exists e : error, Do fn w = (Returns e, snd (fn w)).
Proof.
  rewrite Do_eq. destruct (fn w) as [[e | p] w1]; cbn [snd]; eauto.
Qed.

(** X2: guarding twice is guarding once: [Do] of the function that calls
    [Do(fn)] returns what [Do(fn)] returns, with no second [PanicError]
    around it. *)
Theorem Do_idempotent (fn : M error) (w : world) :
  Do (Do fn) w = Do fn w.
Proof.
  rewrite (Do_eq (Do fn)).
  destruct (Do_never_panics fn w) as (e & w1 & H). now rewrite H.
Qed.

(** X3: when [fn] returns a value together with an error, nil or not,
    [DoWithResult] returns both as they are. *)
Theorem DoWithResult_pass_through (fn : M (iface * error)) (w w1 : world)
  (res : iface) (e : error) :
  fn w = (Returns (res, e), w1) ->
  DoWithResult fn w = (Returns (res, e), w1).
Proof. intros H. now rewrite DoWithResult_eq, H. Qed.

(** X4: [DoWithResult] never panics and leaves the world as [fn] left it;
    when [fn] panicked, the value it returns is nil. *)
Theorem DoWithResult_always_returns (fn : M (iface * error)) (w : world) :
  exists (res : iface) (e : error),
    DoWithResult fn w = (Returns (res, e), snd (fn w)) /\
    (forall p : iface, fst (fn w) = Panics p -> res = NilIface).
Proof.
  rewrite DoWithResult_eq. destruct (fn w) as [[[res e] | p] w1]; cbn [fst snd].
  - exists res, e. split; [reflexivity | discriminate].
  - eexists _, _. split; reflexivity.
Qed.

(** X14: [Do] returns a nil error in two cases only: [fn] returned nil, or
    [fn] called [panic(nil)] on a runtime that hands a nil panic to
    [recover()] as nil. *)
Theorem Do_nil_iff (fn : M error) (w : world) :
  exists e : error,
    Do fn w = (Returns e, snd (fn w)) /\
    (e = NilIface <->
     fst (fn w) = Returns NilIface \/
     (fst (fn w) = Panics NilIface /\ panicnil = true)).
Proof.
  rewrite Do_eq. destruct (fn w) as [[e | p] w1]; cbn [fst snd].
  - exists e. split; [reflexivity |]. split.
    + intros ->. now left.
    + intros [[= ->] | (H & _)]; [reflexivity | discriminate H].
  - eexists. split; [reflexivity |].
    destruct (is_nil (recovered p)) eqn:Hr.
    + apply recovered_nil_cases in Hr. destruct Hr as (-> & Hmode).
      split; [now right | reflexivity].
    + split; [discriminate |].
      intros [H | ([= ->] & Hmode)]; [discriminate H |].
      cbn in Hr. rewrite Hmode in Hr. discriminate Hr.
Qed.

(** ** A nil panic *)

(** X5: on a runtime that hands a nil panic to [recover()] as nil, a
    function that calls [panic(nil)] is taken for one that returned: [Do]
    returns a nil error, [DoWithResult] a nil value and a nil error, and the
    goroutine of [Go] ends without calling [handlePanic]. *)
Theorem nil_panic_is_swallowed :
  panicnil = true ->
  (forall (fn : M error) (w w1 : world),
      fn w = (Panics NilIface, w1) -> Do fn w = (Returns NilIface, w1)) /\
  (forall (fn : M (iface * error)) (w w1 : world),
      fn w = (Panics NilIface, w1) ->
      DoWithResult fn w = (Returns (NilIface, NilIface), w1)) /\
  (forall (fn : M unit) (w w1 : world),
      fn w = (Panics NilIface, w1) -> Go fn w = (Returns tt, w1)).
Proof.
  intros Hmode. repeat split; intros fn w w1 Hfn.
  - rewrite Do_eq, Hfn. cbn [recovered]. now rewrite Hmode.
  - rewrite DoWithResult_eq, Hfn. cbn [recovered]. now rewrite Hmode.
  - rewrite Go_eq, Hfn. cbn [recovered]. now rewrite Hmode.
Qed.

(** X6: on a runtime that turns a nil panic into a [runtime.PanicNilError],
    no panic goes unreported: [Do] and [DoWithResult] return a [PanicError]
    whose [Panic()] is what [recover()] gave, and the goroutine of [Go]
    calls [handlePanic] on it. *)
Theorem every_panic_is_reported :
  panicnil = false ->
  (forall (fn : M error) (w w1 : world) (p : iface),
      fn w = (Panics p, w1) ->
      exists pe : PanicError,
        Do fn w = (Returns (OfPanicError pe), w1) /\
        Panic pe = (if is_nil p then PanicNilError else p)) /\
  (forall (fn : M (iface * error)) (w w1 : world) (p : iface),
      fn w = (Panics p, w1) ->
      exists pe : PanicError,
        DoWithResult fn w = (Returns (NilIface, OfPanicError pe), w1) /\
        Panic pe = (if is_nil p then PanicNilError else p)) /\
  (forall (fn : M unit) (w w1 : world) (p : iface),
      fn w = (Panics p, w1) ->
      Go fn w = handlePanic (if is_nil p then PanicNilError else p) w1).
Proof.
  intros Hmode.
  assert (Hrec : forall p : iface,
             recovered p = (if is_nil p then PanicNilError else p) /\
             is_nil (recovered p) = false).
  { intros p. destruct p; cbn; rewrite ?Hmode; auto. }
  repeat split; intros fn w w1 p Hfn; destruct (Hrec p) as (Hr & Hn).
  - rewrite Do_eq, Hfn, Hn, Hr. eexists. split; reflexivity.
  - rewrite DoWithResult_eq, Hfn, Hn, Hr. eexists. split; reflexivity.
  - rewrite Go_eq, Hfn, Hn, Hr. reflexivity.
Qed.

(** ** Go and the panic handler *)

(** X7: the goroutine of [Go] never ends in a panic, whatever [fn] and the
    handler do; and when [fn] returns, the world is the one [fn] left: no
    handler is called and nothing is written to the log. *)
Theorem Go_always_returns (fn : M unit) (w : world) :
  (exists w2 : world, Go fn w = (Returns tt, w2)) /\
  (forall (u : unit) (w1 : world),
      fn w = (Returns u, w1) -> Go fn w = (Returns tt, w1)).
Proof.
  rewrite Go_eq. destruct (fn w) as [[u | p] w1].
  - split; [eauto |]. now intros u' w1' [= _ <-].
  - split; [| discriminate].
    destruct (is_nil (recovered p)); [eauto | apply handlePanic_returns].
Qed.

(** X8: [SetPanicHandler] never panics and changes nothing but
    [panicHandler]; a second call replaces what the first one stored. *)
Theorem SetPanicHandler_last_wins (f1 f2 : func) (w : world) :
  SetPanicHandler f1 w = (Returns tt, with_handler (OfFunc f1) w) /\
  log_output (snd (SetPanicHandler f1 w)) = log_output w /\
  ext (snd (SetPanicHandler f1 w)) = ext w /\
  SetPanicHandler f2 (snd (SetPanicHandler f1 w)) = SetPanicHandler f2 w.
Proof. repeat split. Qed.

(** X9: the handler is loaded when the panic is dispatched, not when [Go]
    is called: if [fn] itself sets the handler [closure code] and then
    panics with a payload that is not nil, that handler is the one called,
    whatever handler was set before; when it returns, nothing is written to
    the log. *)
Theorem Go_handler_read_at_dispatch (old : iface) (code : nat) (p : iface)
  (w w2 : world) :
  p <> NilIface ->
  closures code (panicError in_handlePanic p)
    (with_handler (OfFunc (closure code)) (with_handler old w))
  = (Returns tt, w2) ->
  Go (set_handler_then_panic (closure code) p) (with_handler old w)
  = (Returns tt, w2).
Proof.
  intros Hp Hc. rewrite Go_eq. cbn [set_handler_then_panic SetPanicHandler
    atomic_Store is_nil panicHandler log_output ext with_handler].
  assert (Hnil : is_nil p = false) by (destruct p; simpl; congruence).
  rewrite (recovered_not_nil p Hnil), Hnil, handlePanic_eq. cbn zeta.
  cbn [panicHandler v assert_func fst].
  unfold with_handler in Hc. cbn [log_output ext] in Hc. now rewrite Hc.
Qed.

(** X10: with a handler set that returns, [handlePanic] calls it on a
    [PanicError] of the value and does nothing else: the world afterwards
    is the one the handler left, without the line of the default log. *)
Theorem handlePanic_calls_handler (val : iface) (code : nat) (w w1 : world) :
  v (panicHandler w) = OfFunc (closure code) ->
  closures code (panicError in_handlePanic val) w = (Returns tt, w1) ->
  handlePanic val w = (Returns tt, w1) /\
  exists pe : PanicError,
    panicError in_handlePanic val = OfPanicError pe /\
    Panic pe = val /\
    PanicError_StackTrace pe = runtime_Callers in_handlePanic.
Proof.
  intros Hh Hc. rewrite handlePanic_eq, Hh. cbn zeta. cbn [assert_func fst].
  rewrite Hc. split; [reflexivity |]. eexists. repeat split.
Qed.

(** ** Group *)

(** X11: [init] runs its body once: a second [init] changes nothing, a
    tracker that is there is kept, and a Group without one gets the zero
    tracker. *)
Theorem init_idempotent (gr : Group) :
  init (init gr) = init gr /\
  once (init gr) = true /\
  (forall eg : errgroup_Group, g gr = Some eg -> g (init gr) = Some eg) /\
  (g gr = None -> once gr = false -> g (init gr) = Some errgroup_zero).
Proof.
  unfold init. destruct gr as [[eg |] [|]]; cbn; repeat split; congruence.
Qed.

Lemma errgroup_finish_running (P : M error -> Prop) (k : nat)
  (eg eg1 : errgroup_Group) (done : list error) (w w1 : world) :
  Forall P (running eg) ->
  errgroup_finish k eg w = (Returns (eg1, done), w1) ->
  Forall P (running eg1).
Proof.
  intros Hrun. unfold errgroup_finish.
  destruct (nth_error (running eg) k) as [f |].
  - pose proof (remove_nth_Forall _ P _ k Hrun) as Hrest.
    destruct (f w) as [[e | p] w2]; [| discriminate].
    destruct (is_nil e); cbn [negb]; [| destruct (errOnce eg)];
      intros [= <- <- <-]; exact Hrest.
  - now intros [= <- <- <-].
Qed.

Lemma errgroup_drain_running (P : M error -> Prop) (m : nat) :
  forall (sched : list nat) (eg eg1 : errgroup_Group) (done : list error)
         (w w1 : world),
    Forall P (running eg) ->
    errgroup_drain m sched eg w = (Returns (eg1, done), w1) ->
    Forall P (running eg1).
Proof.
  induction m as [| m IH]; intros sched eg eg1 done w w1 Hrun;
    cbn [errgroup_drain].
  - now intros [= <- <- <-].
  - destruct (errgroup_finish _ eg w) as [[[eg2 done2] | p] w2] eqn:Hfin;
      [| discriminate].
    destruct (errgroup_drain m (tl sched) eg2 w2) as [[[eg3 done3] | p] w3] eqn:Hdr;
      [| discriminate].
    intros [= <- <- <-].
    eapply IH; [| exact Hdr]. eapply errgroup_finish_running; eauto.
Qed.

Lemma subtasks_init (gr : Group) (eg : errgroup_Group) :
  g (init gr) = Some eg -> running eg = subtasks gr.
Proof.
  intros H. apply init_tracker in H. subst eg. symmetry. apply subtasks_tracker.
Qed.

Lemma guarded_by_incl (fns fns' : list (M error)) (t : M error) :
  incl fns fns' -> guarded_by fns t -> guarded_by fns' t.
Proof. intros Hi (fn & Hin & ->). exists fn. auto. Qed.

Lemma step_guarded (o : op) (fns : list (M error)) (gr gr1 : Group)
  (evs : list event) (w w1 : world) :
  Forall (guarded_by fns) (subtasks gr) ->
  step o gr w = (Returns (gr1, evs), w1) ->
  Forall (guarded_by (fns ++ functions [o])) (subtasks gr1).
Proof.
  intros Hrun.
  assert (Hrun' : Forall (guarded_by (fns ++ functions [o])) (subtasks gr)).
  { eapply Forall_impl; [| exact Hrun]. intros t.
    apply guarded_by_incl. apply incl_appl, incl_refl. }
  destruct o as [fn | k | sched]; cbn [step].
  - unfold Group_Go. destruct (g (init gr)) as [eg |] eqn:Hi; [| discriminate].
    intros [= <- <- <-]. unfold subtasks at 1. cbn [g errgroup_Go running].
    rewrite (subtasks_init gr eg Hi). apply Forall_app. split; [exact Hrun' |].
    constructor; [| constructor]. exists fn. split; [| reflexivity].
    apply in_or_app. right. now left.
  - unfold subtasks in Hrun' |- *. destruct (g gr) as [eg |] eqn:Hg.
    + destruct (errgroup_finish k eg w) as [[[eg1 done] | p] w2] eqn:Hfin;
        [| discriminate].
      intros [= <- <- <-]. cbn [g].
      eapply errgroup_finish_running; eauto.
    + intros [= <- <- <-]. now rewrite Hg.
  - unfold Group_Wait, errgroup_Wait.
    destruct (g (init gr)) as [eg |] eqn:Hi; [| discriminate].
    destruct (errgroup_drain _ sched eg w) as [[[eg1 done] | p] w2] eqn:Hdr;
      [| discriminate].
    intros [= <- <- <-]. unfold subtasks at 1. cbn [g].
    eapply errgroup_drain_running; [| exact Hdr].
    now rewrite (subtasks_init gr eg Hi).
Qed.

Lemma run_guarded (ops : list op) :
  forall (fns : list (M error)) (gr gr1 : Group) (evs : list event)
         (w w1 : world),
    Forall (guarded_by fns) (subtasks gr) ->
    run ops gr w = (Returns (gr1, evs), w1) ->
    Forall (guarded_by (fns ++ functions ops)) (subtasks gr1).
Proof.
  induction ops as [| o ops IH]; intros fns gr gr1 evs w w1 Hrun; cbn [run].
  - intros [= <- <- <-]. cbn. now rewrite app_nil_r.
  - destruct (step o gr w) as [[[gr2 evs2] | p] w2] eqn:Hs; [| discriminate].
    destruct (run ops gr2 w2) as [[[gr3 evs3] | p] w3] eqn:Hr; [| discriminate].
    intros [= <- <- <-].
    change (o :: ops) with ([o] ++ ops). rewrite functions_app, app_assoc.
    eapply IH; [| exact Hr]. eapply step_guarded; eauto.
Qed.

(** X12: a Group never runs a function unguarded: after any calls of [Go]
    and [Wait], in any order of finishing, every subtask still running is
    [Do fn] for a function [fn] that was given to [Go]. *)
Theorem Group_subtasks_guarded (c : option (world -> world)) (ops : list op)
  (w : world) :
  exists (gr : Group) (evs : list event) (w1 : world),
    run ops (fresh_Group c) w = (Returns (gr, evs), w1) /\
    Forall (guarded_by (functions ops)) (subtasks gr).
Proof.
  destruct (run_tracks ops [] 0 (fresh_Group c) w (fresh_Group_tracks c))
    as (gr & evs & w1 & Hrun & _).
  exists gr, evs, w1. split; [exact Hrun |].
  apply (run_guarded ops [] (fresh_Group c) gr evs w w1); [| exact Hrun].
  destruct c; constructor.
Qed.

(** X13: the Group of [GroupWithContext] comes with the derived context,
    and [init] leaves its tracker alone: whatever calls of [Go] and [Wait]
    follow, no other tracker is allocated and the cancel function stays
    the one of the derived context. *)
Theorem GroupWithContext_keeps_tracker (ctx ctx1 : Context)
  (c : world -> world) (w w1 : world) :
  context_WithCancel ctx w = ((ctx1, c), w1) ->
  exists gr0 : Group,
    GroupWithContext ctx w = ((gr0, ctx1), w1) /\
    forall (ops : list op) (w' : world),
    exists (gr : Group) (evs : list event) (w2 : world),
      run ops gr0 w' = (Returns (gr, evs), w2) /\
      allocations evs = 0 /\
      Group_cancel gr = Some c.
Proof.
  intros Hctx. exists (fresh_Group (Some c)). split.
  - now rewrite GroupWithContext_fresh, Hctx.
  - intros ops w'.
    destruct (run_tracks ops [] 0 (fresh_Group (Some c)) w'
                (fresh_Group_tracks (Some c)))
      as (gr & evs & w2 & Hrun & _).
    exists gr, evs, w2. split; [exact Hrun |].
    destruct (run_allocations ops _ _ _ _ _ Hrun) as (Hc & Ha & _).
    split; [exact Ha | exact Hc].
Qed.

End Theorems.

(** ** Examples for Do and DoWithResult *)

#[local] Existing Instance demo.

Example Do_pass_through_witness :
  Do (V := classic) return_seven w0 = (Returns (@Dyn demo 7), w0).
Proof. apply (Do_pass_through (V := classic) return_seven w0 w0 (@Dyn demo 7)). reflexivity. Defined.

Example Do_panic_payload_witness :
  exists pe : @PanicError demo,
    Do (V := classic) panic_boom w0 = (Returns (OfPanicError pe), w0) /\
    is_nil (OfPanicError pe) = false /\
    Panic pe = OfString "boom".
Proof.
  apply (Do_panic_payload (V := classic) panic_boom w0 w0 (OfString "boom")).
  - reflexivity.
  - discriminate.
Defined.

(** C1 as stated fails at [panic(nil)]: before Go 1.21 [Do] returns a nil
    error, and since Go 1.21 the payload of the [PanicError] is a
    [runtime.PanicNilError], not nil. *)
Example Do_panic_nil_counterexample :
  panic_nil (A := error) w0 = (Panics NilIface, w0) /\
  Do (V := classic) panic_nil w0 = (Returns NilIface, w0) /\
  ~ (exists pe : @PanicError demo,
        Do (V := classic) panic_nil w0 = (Returns (OfPanicError pe), w0) /\
        Panic pe = NilIface) /\
  ~ (exists pe : @PanicError demo,
        Do (V := go121) panic_nil w0 = (Returns (OfPanicError pe), w0) /\
        Panic pe = NilIface).
Proof.
  repeat split.
  - intros [pe [H _]]. discriminate H.
  - intros [pe [H Hp]]. injection H as <-. discriminate Hp.
Qed.

Example DoWithResult_spec_witness :
  DoWithResult (V := classic) (fun w => (Returns (@Dyn demo 7, NilIface), w)) w0
  = (Returns (@Dyn demo 7, NilIface), w0) /\
  exists pe : @PanicError demo,
    DoWithResult (V := classic) panic_boom w0
    = (Returns (NilIface, OfPanicError pe), w0) /\
    Panic pe = OfString "boom".
Proof.
  split.
  - apply (proj1 (DoWithResult_spec (V := classic)
                    (fun w => (Returns (@Dyn demo 7, NilIface), w)) w0 w0)).
    reflexivity.
  - apply (proj2 (DoWithResult_spec (V := classic) panic_boom w0 w0)
             (OfString "boom")).
    + reflexivity.
    + left. discriminate.
Defined.

(** C3 as stated fails at [panic(nil)] before Go 1.21: the error is nil, no
    [PanicError]. *)
Example DoWithResult_panic_nil_counterexample :
  panic_nil (A := iface * error) w0 = (Panics NilIface, w0) /\
  DoWithResult (V := classic) panic_nil w0 = (Returns (NilIface, NilIface), w0) /\
  ~ (exists pe : @PanicError demo,
        DoWithResult (V := classic) panic_nil w0
        = (Returns (NilIface, OfPanicError pe), w0)).
Proof.
  repeat split.
  intros [pe H]. discriminate H.
Qed.

(** ** Examples for the panic handler and Go *)

Example handlePanic_never_panics_witness :
  (exists line : string,
      handlePanic (V := classic) (OfString "boom") (w_handler 1)
      = (Returns tt, log_Printf line (journal "handled panic: boom" (w_handler 1))) /\
      contains
        (Sprintf_v (V := classic) true
           (panicError (V := classic) in_handlePanic_recover
              (OfString "handler failed")))
        line /\
      contains
        (Sprintf_v (V := classic) true
           (panicError (V := classic) in_handlePanic (OfString "boom")))
        line) /\
  (exists line : string,
      handlePanic (V := classic) (OfString "boom") w0
      = (Returns tt, log_Printf line w0) /\
      contains "panic: boom" line /\
      contains "safe.Go.func1.1" line).
Proof.
  split.
  - destruct (proj1 (proj2 (handlePanic_never_panics (V := classic)
                              (OfString "boom") (w_handler 1)))
                1 (OfString "handler failed")
                (journal "handled panic: boom" (w_handler 1)))
      as (line & Hrun & Hq & Hval).
    + reflexivity.
    + reflexivity.
    + left. discriminate.
    + exists line. split; [exact Hrun |]. split; [exact Hq | exact Hval].
  - destruct (proj2 (proj2 (handlePanic_never_panics (V := classic)
                              (OfString "boom") w0)))
      as (line & Hrun & Hmsg & Hframes).
    + reflexivity.
    + exists line. split; [exact Hrun |]. split; [exact Hmsg |].
      apply (Hframes "safe.Go.func1.1"). cbn. auto.
Defined.

(** C7 as stated fails before Go 1.21 when the handler calls [panic(nil)]:
    the handler has panicked, and no line is written to the log. *)
Example handlePanic_handler_panic_nil_counterexample :
  closures (Env := classic) 2 (panicError (V := classic) in_handlePanic (OfString "boom"))
    (w_handler 2)
  = (Panics NilIface, journal "handled panic: boom" (w_handler 2)) /\
  handlePanic (V := classic) (OfString "boom") (w_handler 2)
  = (Returns tt, journal "handled panic: boom" (w_handler 2)) /\
  ~ (exists line : string,
        handlePanic (V := classic) (OfString "boom") (w_handler 2)
        = (Returns tt, log_Printf line (journal "handled panic: boom" (w_handler 2)))).
Proof.
  split; [reflexivity |]. split; [reflexivity |].
  intros (line & H). discriminate H.
Qed.

Example Go_panic_dispatch_witness :
  (exists w2 : world, Go (V := classic) panic_boom (w_handler 0) = (Returns tt, w2)) /\
  (exists (pe : PanicError) (o : outcome unit) (w2 : world),
      Panic pe = OfString "boom" /\
      closures (Env := classic) 0 (OfPanicError pe) (w_handler 0) = (o, w2) /\
      (Go (V := classic) panic_boom (w_handler 0) = (Returns tt, w2) \/
       exists line : string,
         Go (V := classic) panic_boom (w_handler 0)
         = (Returns tt, log_Printf line w2))) /\
  (exists (pe : PanicError) (line : string),
      Panic pe = OfString "boom" /\
      line = Sprintf_v (V := classic) true (OfPanicError pe) ++ newline /\
      Go (V := classic) panic_boom w0 = (Returns tt, log_Printf line w0) /\
      contains "panic: boom" line).
Proof.
  split; [| split].
  - apply (proj1 (Go_panic_dispatch (V := classic) panic_boom (w_handler 0)
                    (w_handler 0) (OfString "boom") eq_refl)).
  - apply (proj2 (Go_panic_dispatch (V := classic) panic_boom (w_handler 0)
                    (w_handler 0) (OfString "boom") eq_refl)).
    + discriminate.
    + reflexivity.
  - apply (proj2 (Go_panic_dispatch (V := classic) panic_boom w0 w0
                    (OfString "boom") eq_refl)).
    + discriminate.
    + reflexivity.
Defined.

(** C6 as stated fails at [panic(nil)] with a handler set: before Go 1.21 the
    handler is not called at all, and since Go 1.21 it is called on a
    [PanicError] whose [Panic()] is a [runtime.PanicNilError], not nil. *)
Example Go_panic_nil_counterexample :
  panic_nil (A := unit) (w_handler 0) = (Panics NilIface, w_handler 0) /\
  Go (V := classic) panic_nil (w_handler 0) = (Returns tt, w_handler 0) /\
  ~ (exists (pe : PanicError) (o : outcome unit) (w2 : world),
        Panic pe = NilIface /\
        closures (Env := classic) 0 (OfPanicError pe) (w_handler 0) = (o, w2) /\
        (Go (V := classic) panic_nil (w_handler 0) = (Returns tt, w2) \/
         exists line : string,
           Go (V := classic) panic_nil (w_handler 0)
           = (Returns tt, log_Printf line w2))) /\
  ~ (exists (pe : PanicError) (o : outcome unit) (w2 : world),
        Panic pe = NilIface /\
        closures (Env := go121) 0 (OfPanicError pe) (w_handler 0) = (o, w2) /\
        (Go (V := go121) panic_nil (w_handler 0) = (Returns tt, w2) \/
         exists line : string,
           Go (V := go121) panic_nil (w_handler 0)
           = (Returns tt, log_Printf line w2))).
Proof.
  split; [reflexivity |]. split; [reflexivity |]. split.
  - intros ([e val] & o & w2 & Hp & Hc & Hgo). cbn in Hp. subst val.
    cbn in Hc. injection Hc as <- <-.
    destruct Hgo as [H | (line & H)]; discriminate H.
  - intros ([e val] & o & w2 & Hp & Hc & Hgo). cbn in Hp. subst val.
    cbn in Hc. injection Hc as <- <-.
    destruct Hgo as [H | (line & H)]; discriminate H.
Qed.

(** ** Examples for Group *)

Example Group_Wait_first_error_witness :
  exists (gr : Group) (evs : list event) (w1 : world)
         (gr2 : Group) (done : list error) (w2 : world) (ms : list move),
    run (V := classic) demo_ops zero_Group w0 = (Returns (gr, evs), w1) /\
    Group_Wait sched_10 gr w1
    = (Returns (first_error (finished evs ++ done), gr2, done), w2) /\
    subtasks gr2 = [] /\
    length (finished evs ++ done) = 2 /\
    Permutation (ran ms) [return_seven; panic_boom] /\
    spec_replay (V := classic) None ms false w0 = ((finished evs ++ done)%list, w2) /\
    log_empty w2.
Proof.
  destruct (Group_Wait_first_error (V := classic) None demo_ops sched_10 w0)
    as (gr & evs & w1 & gr2 & done & w2 & ms
        & H1 & H2 & H3 & H4 & H5 & _ & H6 & H7).
  exists gr, evs, w1, gr2, done, w2, ms.
  split; [exact H1 |]. split; [exact H2 |]. split; [exact H3 |].
  split; [exact H4 |]. split; [exact H5 |]. split; [exact H6 |].
  apply (H7 log_empty).
  - apply Forall_cons; [| apply Forall_cons; [| apply Forall_nil]];
      intros w Hw; exact Hw.
  - exact I.
  - reflexivity.
Defined.

Example Group_panic_is_error_witness :
  exists (pe : PanicError) (gr3 : Group) (evs3 : list event) (w3 : world)
         (gr4 : Group) (done : list error) (w4 : world),
    run (V := classic) [OpFinish 1] (demo_Group classic) w0
    = (Returns (gr3, evs3), w3) /\
    Group_Wait sched_10 gr3 w3 = (Returns (OfPanicError pe, gr4, done), w4) /\
    Panic pe = OfString "boom" /\
    PanicError_StackTrace pe = ["safe.Do.func1"; "runtime.gopanic"; "safe.Do"].
Proof.
  apply (proj2 (Group_panic_is_error (V := classic) None)
           demo_ops [] sched_10 w0 w0 w0 (demo_Group classic) [Allocated] 1
           panic_boom (OfString "boom")).
  - reflexivity.
  - reflexivity.
  - reflexivity.
  - reflexivity.
  - discriminate.
Defined.

(** C4 as stated fails in two ways.  A subtask that panics after another
    subtask has failed is not what [Wait] returns: here the subtask that
    returns the error 7 finishes first, and [Wait] returns 7, no
    [PanicError].  And a subtask that calls [panic(nil)] gives a nil error
    before Go 1.21, and since then a [PanicError] whose [Panic()] is not
    nil. *)
Example Group_panic_counterexample :
  panic_boom (A := error) w0 = (Panics (OfString "boom"), w0) /\
  wait_result (V := classic) demo_ops [0; 0] zero_Group w0 = Some (@Dyn demo 7) /\
  ~ (exists pe : PanicError,
        wait_result (V := classic) demo_ops [0; 0] zero_Group w0
        = Some (OfPanicError pe)) /\
  panic_nil (A := error) w0 = (Panics NilIface, w0) /\
  wait_result (V := classic) [OpGo panic_nil] [] zero_Group w0 = Some NilIface /\
  ~ (exists pe : PanicError,
        wait_result (V := classic) [OpGo panic_nil] [] zero_Group w0
        = Some (OfPanicError pe)) /\
  ~ (exists pe : PanicError,
        wait_result (V := go121) [OpGo panic_nil] [] zero_Group w0
        = Some (OfPanicError pe) /\
        Panic pe = NilIface).
Proof.
  split; [reflexivity |]. split; [reflexivity |].
  split; [intros (pe & H); discriminate H |].
  split; [reflexivity |]. split; [reflexivity |].
  split; [intros (pe & H); discriminate H |].
  intros (pe & H & Hp). cbn in H. injection H as <-. discriminate Hp.
Qed.

Example zero_Group_valid_witness :
  (exists (gr : Group) (evs : list event) (n : nat) (w1 : world)
          (gr2 : Group) (done : list error) (w2 : world) (ms : list move),
      run_actions (V := classic) demo_acts zero_Group w0
      = (Returns (gr, evs, n), w1) /\
      n = 1 /\
      Group_Wait sched_10 gr w1
      = (Returns (first_error (finished evs ++ done), gr2, done), w2) /\
      n + snd (init_traced gr) = 1 /\
      subtasks gr2 = [] /\
      Group_cancel gr2 = None /\
      Permutation (ran ms) [return_seven; panic_boom] /\
      spec_replay (V := classic) None ms false w0
      = ((finished evs ++ done)%list, w2)) /\
  exists (gr : Group) (evs : list event) (w1 : world)
         (gr2 : Group) (done : list error) (w2 : world),
    run (V := classic) demo_ops zero_Group w0 = (Returns (gr, evs), w1) /\
    Group_Wait sched_10 gr w1
    = (Returns (first_error (finished evs ++ done), gr2, done), w2) /\
    allocations (evs ++ allocated gr gr2) = 1 /\
    Group_cancel gr2 = None /\
    log_empty w2 /\
    exists (gr' : Group) (evs' : list event) (w1' : world)
           (gr2' : Group) (done' : list error) (w2' : world),
      run (V := classic) demo_ops
        (fresh_Group (Some (journal "context canceled"))) w0
      = (Returns (gr', evs'), w1') /\
      Group_Wait sched_10 gr' w1'
      = (Returns (first_error (finished evs ++ done), gr2', done'), w2') /\
      finished evs' = finished evs /\
      waited evs' = waited evs /\
      done' = done /\
      same_but_journal w2 w2'.
Proof.
  split.
  - apply (proj1 (zero_Group_valid (V := classic)) demo_acts sched_10 w0).
    reflexivity.
  - destruct (proj2 (zero_Group_valid (V := classic)) demo_ops sched_10 w0)
      as (gr & evs & w1 & gr2 & done & w2 & ms
          & H1 & H2 & _ & _ & H5 & H6 & _ & _ & H7 & H8).
    exists gr, evs, w1, gr2, done, w2.
    split; [exact H1 |]. split; [exact H2 |]. split; [exact H5 |].
    split; [exact H6 |]. split.
    + apply (H7 log_empty).
      * apply Forall_cons; [| apply Forall_cons; [| apply Forall_nil]];
          intros w Hw; exact Hw.
      * reflexivity.
    + destruct (H8 same_but_journal (journal "context canceled") w0)
        as (gr' & evs' & w1' & gr2' & done' & w2' & ms'
            & K1 & K2 & K3 & K4 & K5 & _ & _ & K6).
      * intros a b (Ha & Hb). split; [exact Ha | exact Hb].
      * apply Forall_cons; [| apply Forall_cons; [| apply Forall_nil]];
          intros a b Hab; (split; [reflexivity | exact Hab]).
      * split; reflexivity.
      * exists gr', evs', w1', gr2', done', w2'. auto 10.
Defined.

(** ** Examples for the further properties *)

Example DoWithResult_pass_through_witness :
  DoWithResult (V := classic)
    (fun w => (Returns (@Dyn demo 7, OfString "half done"), w)) w0
  = (Returns (@Dyn demo 7, OfString "half done"), w0).
Proof.
  apply (DoWithResult_pass_through (V := classic)
           (fun w => (Returns (@Dyn demo 7, OfString "half done"), w)) w0 w0).
  reflexivity.
Defined.

Example DoWithResult_always_returns_witness :
  exists (res : iface) (e : error),
    DoWithResult (V := classic) panic_boom w0 = (Returns (res, e), w0) /\
    res = NilIface.
Proof.
  destruct (DoWithResult_always_returns (V := classic) panic_boom w0)
    as (res & e & Hrun & Hres).
  exists res, e. split; [exact Hrun |].
  apply (Hres (OfString "boom")). reflexivity.
Defined.

Example nil_panic_is_swallowed_witness :
  Do (V := classic) panic_nil w0 = (Returns NilIface, w0) /\
  DoWithResult (V := classic) panic_nil w0 = (Returns (NilIface, NilIface), w0) /\
  Go (V := classic) panic_nil (w_handler 0) = (Returns tt, w_handler 0).
Proof.
  destruct (nil_panic_is_swallowed (V := classic) eq_refl) as (HDo & HRes & HGo).
  split; [| split].
  - apply HDo. reflexivity.
  - apply HRes. reflexivity.
  - apply HGo. reflexivity.
Defined.

Example every_panic_is_reported_witness :
  (exists pe : PanicError,
      Do (V := go121) panic_nil w0 = (Returns (OfPanicError pe), w0) /\
      Panic pe = PanicNilError) /\
  (exists pe : PanicError,
      DoWithResult (V := go121) panic_nil w0
      = (Returns (NilIface, OfPanicError pe), w0) /\
      Panic pe = PanicNilError) /\
  Go (V := go121) panic_nil (w_handler 0)
  = handlePanic (V := go121) PanicNilError (w_handler 0).
Proof.
  destruct (every_panic_is_reported (V := go121) eq_refl) as (HDo & HRes & HGo).
  split; [| split].
  - apply (HDo panic_nil w0 w0 NilIface). reflexivity.
  - apply (HRes panic_nil w0 w0 NilIface). reflexivity.
  - apply (HGo panic_nil (w_handler 0) (w_handler 0) NilIface). reflexivity.
Defined.

Example Go_always_returns_witness :
  Go (V := classic) (fun w => (Returns tt, journal "ran" w)) (w_handler 1)
  = (Returns tt, journal "ran" (w_handler 1)).
Proof.
  apply (proj2 (Go_always_returns (V := classic)
                  (fun w => (Returns tt, journal "ran" w)) (w_handler 1)) tt).
  reflexivity.
Defined.

Example Go_handler_read_at_dispatch_witness :
  Go (V := classic) (set_handler_then_panic (closure 0) (OfString "boom"))
    (with_handler (OfFunc (closure 1)) w0)
  = (Returns tt, journal "handled panic: boom" (w_handler 0)).
Proof.
  apply (Go_handler_read_at_dispatch (V := classic) (OfFunc (closure 1)) 0
           (OfString "boom") w0).
  - discriminate.
  - reflexivity.
Defined.

Example handlePanic_calls_handler_witness :
  handlePanic (V := classic) (OfString "boom") (w_handler 0)
  = (Returns tt, journal "handled panic: boom" (w_handler 0)) /\
  exists pe : PanicError,
    panicError (V := classic) in_handlePanic (OfString "boom") = OfPanicError pe /\
    Panic pe = OfString "boom" /\
    PanicError_StackTrace pe = ["safe.handlePanic"; "safe.Go.func1.1"].
Proof.
  apply (handlePanic_calls_handler (V := classic) (OfString "boom") 0
           (w_handler 0) (journal "handled panic: boom" (w_handler 0))).
  - reflexivity.
  - reflexivity.
Defined.

Example init_idempotent_witness :
  g (init (@zero_Group demo)) = Some errgroup_zero /\
  g (init (fresh_Group (Some (journal "context canceled"))))
  = g (fresh_Group (Some (journal "context canceled"))).
Proof.
  split.
  - apply (proj2 (proj2 (proj2 (init_idempotent (@zero_Group demo)))));
      reflexivity.
  - apply (proj1 (proj2 (proj2 (init_idempotent
                                  (fresh_Group (Some (journal "context canceled"))))))).
    reflexivity.
Defined.

Example GroupWithContext_keeps_tracker_witness :
  exists gr0 : Group,
    GroupWithContext (V := classic) 0 w0 = ((gr0, 1), w0) /\
    exists (gr : Group) (evs : list event) (w2 : world),
      run (V := classic) demo_ops gr0 w0 = (Returns (gr, evs), w2) /\
      allocations evs = 0 /\
      Group_cancel gr = Some (journal "context canceled").
Proof.
  destruct (GroupWithContext_keeps_tracker (V := classic) 0 1
              (journal "context canceled") w0 w0 eq_refl)
    as (gr0 & HG & Hruns).
  exists gr0. split; [exact HG |]. apply (Hruns demo_ops w0).
Defined.

Example Do_nil_iff_witness :
  exists e : error,
    Do (V := go121) panic_nil w0 = (Returns e, w0) /\ e <> NilIface.
Proof.
  destruct (Do_nil_iff (V := go121) panic_nil w0) as (e & Hrun & Hiff).
  exists e. split; [exact Hrun |].
  intros He. apply (proj1 Hiff) in He.
  destruct He as [He | (_ & He)]; discriminate He.
Defined.
